(** * OpenMHzPi: the poll / dedup / bounded-queue / playback pipeline

    A shallow embedding of [main.go] (and of the player of the two other
    revisions of the file, which download and transcode the audio)
    together with the properties of the pipeline:

    - the deduplication ledger ([processedCalls], a [sync.Map]);
    - the bounded call queue (a buffered [chan Call]);
    - the fetcher goroutine [fetchCalls] and the player goroutine
      [playAudio], interleaved by a scheduler;
    - the start-up sequence of [main] and the shutdown signal [done]. *)

From Stdlib Require Import Ascii.
From stdpp Require Import gmap strings list.


(** ** Data model *)

(** [type Call struct] of main.go. *)
Record Call := mkCall {
  ID : string;
  URL : string;
  Filename : string;
  Time : string
}.

#[global] Instance Call_eq_dec : EqDecision Call.
Proof. solve_decision. Defined.

(** [const MaxQueueSize = 50]. *)
Definition MaxQueueSize : nat := 50.

(** ** The deduplication ledger: [sync.Map] keyed by call ID *)

Module SyncMap.

(** [m.Store(key, value)]. *)
Definition Store (m : gmap string bool) (key : string) (value : bool)
  : gmap string bool :=
  <[key := value]> m.

(** [m.Load(key)]: the value and whether the key was present. *)
Definition Load (m : gmap string bool) (key : string) : option bool :=
  m !! key.

(** [actual, loaded := m.LoadOrStore(key, value)]: the map afterwards,
    the value now stored under [key], and [loaded]. *)
Definition LoadOrStore (m : gmap string bool) (key : string) (value : bool)
  : gmap string bool * bool * bool :=
  match m !! key with
  | Some actual => (m, actual, true)
  | None => (<[key := value]> m, value, false)
  end.

End SyncMap.

(** ** The bounded call queue: a buffered [chan Call]

    The buffer is a list, oldest element first.  An operation that would
    block returns [None]. *)

Module Chan.

(** [select { case ch <- v: ... default: ... }]: a send that does not
    block; [None] is the [default] branch. *)
Definition try_send (cap : nat) (buf : list Call) (v : Call)
  : option (list Call) :=
  if bool_decide (List.length buf < cap) then Some (buf ++ [v]) else None.

(** [ch <- v]: enabled exactly when the buffer has room. *)
Definition send (cap : nat) (buf : list Call) (v : Call)
  : option (list Call) :=
  try_send cap buf v.

(** [<-ch]: enabled exactly when the buffer is not empty. *)
Definition recv (buf : list Call) : option (Call * list Call) :=
  match buf with
  | [] => None
  | v :: buf' => Some (v, buf')
  end.

End Chan.

(** The enqueue statement of [fetchCalls] (main.go, the [select] under
    [LoadOrStore]) run without the player interfering: the new buffer and
    the call that was dropped, if any. *)
Definition tryEnqueue (cap : nat) (queue : list Call) (call : Call)
  : option (list Call * option Call) :=
  match Chan.try_send cap queue call with
  | Some queue' => Some (queue', None)
  | None =>
      '(oldest, queue1) ← Chan.recv queue;
      queue2 ← Chan.send cap queue1 call;
      Some (queue2, Some oldest)
  end.

(** Enqueue a batch of calls one after the other, collecting the dropped
    calls in order. *)
Fixpoint enqueueAll (cap : nat) (queue : list Call) (calls : list Call)
  : option (list Call * list Call) :=
  match calls with
  | [] => Some (queue, [])
  | call :: rest =>
      '(queue1, dropped) ← tryEnqueue cap queue call;
      '(queue2, droppedRest) ← enqueueAll cap queue1 rest;
      Some (queue2, from_option (λ c, [c]) [] dropped ++ droppedRest)
  end.


(** ** The proxy adapter: [fetchJSON]

    What the outside world does during one call of [fetchJSON] is an
    input of the model; [strconv.Unquote] and [json.Unmarshal] are library
    functions, taken as parameters. *)

(** The ways a Go call can end: a value, a returned [error], or a run-time
    panic (which nothing in the program recovers from). *)
Inductive outcome (E A : Type) : Type :=
| Ok (a : A)
| Err (e : E)
| Panic.
Arguments Ok {E A} a.
Arguments Err {E A} e.
Arguments Panic {E A}.

(** The [return nil, fmt.Errorf(...)] sites of [fetchJSON], in order. *)
Inductive FetchError :=
| ErrMarshal          (* "error marshalling request JSON" *)
| ErrNewRequest       (* "error creating request" *)
| ErrDo               (* "error performing request" *)
| ErrStatus (code : Z) (* "unexpected status code: %d" *)
| ErrReadBody         (* "error reading response body" *)
| ErrNoPre            (* "failed to locate <pre> tags in response" *)
| ErrUnquote.         (* "error unescaping JSON" *)

(** What the proxy and the HTTP client do for one request. *)
Inductive HttpReply :=
| MarshalFails
| NewRequestFails
| DoFails                                    (* [client.Do] returns an error *)
| Reply (StatusCode : Z) (body : option string). (* [None]: [io.ReadAll] fails *)

Definition StatusOK : Z := 200.

(** [strings.Index(s, substr)]: byte index of the first occurrence, or -1. *)
Definition strings_Index (s substr : string) : Z :=
  match String.index 0 substr s with
  | Some i => Z.of_nat i
  | None => (-1)%Z
  end.

(** The slice expression [s[lo:hi]] on a string: it panics unless
    [0 <= lo <= hi <= len(s)]. *)
Definition slice (s : string) (lo hi : Z) : option string :=
  if bool_decide (0 ≤ lo ∧ lo ≤ hi ∧ hi ≤ Z.of_nat (String.length s))%Z
  then Some (String.substring (Z.to_nat lo) (Z.to_nat (hi - lo)) s)
  else None.

Definition dquote : string := String "034"%char EmptyString.

(** [type System struct] and [type SystemsResponse struct] (the fields the
    program reads). *)
Record System := mkSystem { Name : string; ShortName : string }.
Record SystemsResponse := mkSystemsResponse {
  Success : bool;
  Systems : list System
}.

(** The library decoders the program calls. [None] is a returned error. *)
Record Decoders := mkDecoders {
  (** [strconv.Unquote] *)
  Unquote : string → option string;
  (** [json.Unmarshal(body, &callsResponse)], then [callsResponse.Calls] *)
  UnmarshalCalls : string → option (list Call);
  (** [json.Unmarshal(body, &systemsResponse)] *)
  UnmarshalSystems : string → option SystemsResponse
}.

Section Adapter.
Context (lib : Decoders).

Definition fetchJSON (r : HttpReply) : outcome FetchError string :=
  match r with
  | MarshalFails => Err ErrMarshal
  | NewRequestFails => Err ErrNewRequest
  | DoFails => Err ErrDo
  | Reply code body =>
      if bool_decide (code ≠ StatusOK) then Err (ErrStatus code) else
      match body with
      | None => Err ErrReadBody
      | Some htmlContent =>
          let startIndex := strings_Index htmlContent "<pre>" in
          let endIndex := strings_Index htmlContent "</pre>" in
          if bool_decide (startIndex = (-1)%Z ∨ endIndex = (-1)%Z)
          then Err ErrNoPre
          else
            match slice htmlContent
                    (startIndex + Z.of_nat (String.length "<pre>")) endIndex with
            | None => Panic
            | Some jsonStr =>
                match Unquote lib (dquote +:+ jsonStr +:+ dquote) with
                | None => Err ErrUnquote
                | Some unescapedJSON => Ok unescapedJSON
                end
            end
      end
  end.

(** The errors one fetch cycle of [fetchCalls] logs before [continue]. *)
Inductive CycleError :=
| ErrFetching (e : FetchError)   (* "Error fetching calls: " *)
| ErrParsing.                    (* "Error parsing calls JSON: " *)

(** The first half of a cycle of [fetchCalls]: [fetchJSON] and
    [json.Unmarshal], up to the [range] loop. *)
Definition fetchListing (r : HttpReply) : outcome CycleError (list Call) :=
  match fetchJSON r with
  | Err e => Err (ErrFetching e)
  | Panic => Panic
  | Ok body =>
      match UnmarshalCalls lib body with
      | None => Err ErrParsing
      | Some calls => Ok calls
      end
  end.

End Adapter.

(** ** The running program: three goroutines over shared state

    [main] (after start-up), [fetchCalls] and [playAudio] are modelled as
    program counters over the shared [queue], [processedCalls] and [done];
    a scheduler picks which goroutine moves.  A [select] may take any of
    its ready cases. *)

(** Where [fetchCalls] stands. *)
Inductive FetcherPC :=
| FWait (timerReady : bool)
    (* blocked in [select { case <-done: ...; case <-time.After(FetchInterval): ... }];
       [timerReady]: the interval has elapsed *)
| FRange (rest : list Call)
    (* in [for _, call := range callsResponse.Calls], [rest] still to do *)
| FDropOldest (call : Call) (rest : list Call)
    (* [default:] branch taken, about to run [<-queue] *)
| FResend (call : Call) (rest : list Call)
    (* about to run the blocking [queue <- call] *)
| FStopped.
    (* returned after "Stopping call fetcher." *)

(** Where [playAudio] stands. *)
Inductive PlayerPC :=
| PWait                   (* blocked in [select { case <-done: ...; case call := <-queue: ... }] *)
| PPlaying (call : Call)  (* between the receive and the end of the case body *)
| PStopped.               (* returned after "Stopping audio player." *)

(** Where [main] stands once both goroutines are started. *)
Inductive MainPC :=
| MAwaitSignal   (* [<-c] *)
| MGrace         (* [close(done)] done, in [time.Sleep(2 * time.Second)] *)
| MReturned.

(** The process: running, or gone with an exit status. *)
Inductive Process :=
| Alive
| Exited (status : Z).

Record State := mkState {
  process : Process;
  done : bool;                         (* [done] is closed *)
  queue : list Call;                   (* buffer of [queue], oldest first *)
  processedCalls : gmap string bool;
  isFirstRun : bool;                   (* local variable of [fetchCalls] *)
  fetcher : FetcherPC;
  player : PlayerPC;
  mainpc : MainPC
}.

(** How one playback ends in [playAudio] of main.go. *)
Inductive PlayResult :=
| BeepFails    (* [playRogerBeep] returns an error *)
| FileFails    (* [playFile] returns an error *)
| Played.

(** What the scheduler and the outside world can do next. *)
Inductive Action :=
| ASignal                       (* main: [<-c] returns; [close(done)] *)
| AGraceOver                    (* main: the sleep ends, [Run] returns *)
| ATimer                        (* the fetcher's [time.After] channel becomes ready *)
| AFetcherDone                  (* fetcher: the select takes [case <-done] *)
| AFetcherTick (r : HttpReply)  (* fetcher: the select takes the timer case *)
| AFetcherStep                  (* fetcher: next statement of the range loop *)
| APlayerDone                   (* player: the select takes [case <-done] *)
| APlayerRecv                   (* player: the select takes [case call := <-queue] *)
| APlayerFinish (o : PlayResult). (* player: the case body ends *)

(** What an observer of the run sees. *)
Inductive Event :=
| EvShutdown
| EvFetchFailed (e : CycleError)
| EvListing (priming : bool) (calls : list Call)
| EvPrimed (id : string)     (* [Store] during the initial run *)
| EvNew (id : string)        (* [LoadOrStore] with [loaded = false] *)
| EvSeen (id : string)       (* [LoadOrStore] with [loaded = true] *)
| EvEnq (c : Call)           (* the fetcher sent [c] on [queue] *)
| EvEvict (c : Call)         (* the fetcher received [c] from [queue] to drop it *)
| EvDeq (c : Call)           (* the player received [c] from [queue] *)
| EvPlayFailed (c : Call)
| EvPlayed (c : Call)
| EvFetcherStopped
| EvPlayerStopped
| EvCrash.

Definition with_fetcher (s : State) (f : FetcherPC) : State :=
  mkState (process s) (done s) (queue s) (processedCalls s) (isFirstRun s)
          f (player s) (mainpc s).

Definition with_player (s : State) (p : PlayerPC) : State :=
  mkState (process s) (done s) (queue s) (processedCalls s) (isFirstRun s)
          (fetcher s) p (mainpc s).

Definition with_queue (s : State) (q : list Call) : State :=
  mkState (process s) (done s) q (processedCalls s) (isFirstRun s)
          (fetcher s) (player s) (mainpc s).

Definition with_processedCalls (s : State) (m : gmap string bool) : State :=
  mkState (process s) (done s) (queue s) m (isFirstRun s)
          (fetcher s) (player s) (mainpc s).

Definition with_isFirstRun (s : State) (b : bool) : State :=
  mkState (process s) (done s) (queue s) (processedCalls s) b
          (fetcher s) (player s) (mainpc s).

Definition with_process (s : State) (p : Process) : State :=
  mkState p (done s) (queue s) (processedCalls s) (isFirstRun s)
          (fetcher s) (player s) (mainpc s).

Definition with_main (s : State) (d : bool) (m : MainPC) : State :=
  mkState (process s) d (queue s) (processedCalls s) (isFirstRun s)
          (fetcher s) (player s) m.

(** The state right after [go fetchCalls(...)] and [go playAudio(...)]. *)
Definition init : State :=
  mkState Alive false [] ∅ true (FWait false) PWait MAwaitSignal.

Section Pipeline.
Context (lib : Decoders).
Context (cap : nat).   (* capacity of [queue]; [MaxQueueSize] in [main] *)

(** [fetchCalls], inside [for _, call := range callsResponse.Calls]: one
    statement of the loop body, or the end of the loop. *)
Definition fetchCalls_range (s : State) : option (State * list Event) :=
  match fetcher s with
  | FRange [] =>
      (* [if isFirstRun { isFirstRun = false }], back to the select *)
      Some (with_fetcher (with_isFirstRun s false) (FWait false), [])
  | FRange (call :: rest) =>
      if isFirstRun s then
        Some (with_fetcher
                (with_processedCalls s
                   (SyncMap.Store (processedCalls s) (ID call) true))
                (FRange rest),
              [EvPrimed (ID call)])
      else
        let '(m, _, exists_) :=
          SyncMap.LoadOrStore (processedCalls s) (ID call) true in
        if exists_ then
          Some (with_fetcher s (FRange rest), [EvSeen (ID call)])
        else
          match Chan.try_send cap (queue s) call with
          | Some q =>
              Some (with_fetcher
                      (with_queue (with_processedCalls s m) q) (FRange rest),
                    [EvNew (ID call); EvEnq call])
          | None =>
              Some (with_fetcher (with_processedCalls s m)
                      (FDropOldest call rest),
                    [EvNew (ID call)])
          end
  | FDropOldest call rest =>
      '(oldest, q) ← Chan.recv (queue s);
      Some (with_fetcher (with_queue s q) (FResend call rest),
            [EvEvict oldest])
  | FResend call rest =>
      q ← Chan.send cap (queue s) call;
      Some (with_fetcher (with_queue s q) (FRange rest), [EvEnq call])
  | FWait _ | FStopped => None
  end.

(** [fetchCalls]: one move of the fetcher goroutine. *)
Definition fetchCalls (s : State) (a : Action) : option (State * list Event) :=
  match a with
  | AFetcherDone =>
      match fetcher s with
      | FWait _ =>
          if done s then Some (with_fetcher s FStopped, [EvFetcherStopped])
          else None
      | _ => None
      end
  | AFetcherTick r =>
      match fetcher s with
      | FWait true =>
          match fetchListing lib r with
          | Err e => Some (with_fetcher s (FWait false), [EvFetchFailed e])
          | Panic => Some (with_process s (Exited 2), [EvCrash])
          | Ok calls =>
              Some (with_fetcher s (FRange calls),
                    [EvListing (isFirstRun s) calls])
          end
      | _ => None
      end
  | AFetcherStep => fetchCalls_range s
  | _ => None
  end.

(** [playAudio] of main.go: one move of the player goroutine. *)
Definition playAudio (s : State) (a : Action) : option (State * list Event) :=
  match a with
  | APlayerDone =>
      match player s with
      | PWait =>
          if done s then Some (with_player s PStopped, [EvPlayerStopped])
          else None
      | _ => None
      end
  | APlayerRecv =>
      match player s with
      | PWait =>
          '(call, q) ← Chan.recv (queue s);
          Some (with_player (with_queue s q) (PPlaying call), [EvDeq call])
      | _ => None
      end
  | APlayerFinish o =>
      match player s with
      | PPlaying call =>
          Some (with_player s PWait,
                [match o with
                 | Played => EvPlayed call
                 | _ => EvPlayFailed call
                 end])
      | _ => None
      end
  | _ => None
  end.

(** The end of [main]: wait for the signal, close [done], sleep, return. *)
Definition mainWait (s : State) (a : Action) : option (State * list Event) :=
  match a with
  | ASignal =>
      match mainpc s with
      | MAwaitSignal => Some (with_main s true MGrace, [EvShutdown])
      | _ => None
      end
  | AGraceOver =>
      match mainpc s with
      | MGrace => Some (with_process (with_main s (done s) MReturned)
                          (Exited 0), [])
      | _ => None
      end
  | _ => None
  end.

(** The interval of the fetcher's pending [time.After] elapses. *)
Definition timerFires (s : State) : option (State * list Event) :=
  match fetcher s with
  | FWait false => Some (with_fetcher s (FWait true), [])
  | _ => None
  end.

(** One move of the whole program; [None] when the action is not enabled
    or the process is gone. *)
Definition step (s : State) (a : Action) : option (State * list Event) :=
  match process s with
  | Exited _ => None
  | Alive =>
      match a with
      | ASignal | AGraceOver => mainWait s a
      | ATimer => timerFires s
      | AFetcherDone | AFetcherTick _ | AFetcherStep => fetchCalls s a
      | APlayerDone | APlayerRecv | APlayerFinish _ => playAudio s a
      end
  end.

(** Run a schedule from [s]: the final state and everything observed. *)
Fixpoint run (s : State) (sched : list Action) : option (State * list Event) :=
  match sched with
  | [] => Some (s, [])
  | a :: sched' =>
      '(s1, evs1) ← step s a;
      '(s2, evs2) ← run s1 sched';
      Some (s2, evs1 ++ evs2)
  end.

(** [reaches s tr s']: some schedule leads from [s] to [s'] and shows [tr]. *)
Inductive reaches (s : State) : list Event → State → Prop :=
| reaches_refl : reaches s [] s
| reaches_step tr s1 a s2 evs :
    reaches s tr s1 →
    step s1 a = Some (s2, evs) →
    reaches s (tr ++ evs) s2.

End Pipeline.

(** What a trace says was enqueued, dropped and played, in order. *)
Definition enqs (tr : list Event) : list Call :=
  omap (λ e, match e with EvEnq c => Some c | _ => None end) tr.
Definition evicts (tr : list Event) : list Call :=
  omap (λ e, match e with EvEvict c => Some c | _ => None end) tr.
Definition deqs (tr : list Event) : list Call :=
  omap (λ e, match e with EvDeq c => Some c | _ => None end) tr.
Definition primed (tr : list Event) : list string :=
  omap (λ e, match e with EvPrimed id => Some id | _ => None end) tr.
Definition news (tr : list Event) : list string :=
  omap (λ e, match e with EvNew id => Some id | _ => None end) tr.
(** The listings the fetcher obtained, each with the mode it was in. *)
Definition listings (tr : list Event) : list (bool * list Call) :=
  omap (λ e, match e with EvListing p L => Some (p, L) | _ => None end) tr.

(** ** Start-up: [main] up to the two [go] statements *)

(** The [fmt.Errorf] sites of [fetchSystems]. *)
Inductive SystemsError :=
| ErrFetchSystems (e : FetchError)  (* "failed to fetch systems" *)
| ErrParseSystems                   (* "error parsing systems JSON" *)
| ErrApiFailure                     (* "API response indicates failure" *)
| ErrUserInput.                     (* "error reading user input" *)

(** What [main] prints before the process ends. *)
Inductive FatalMessage :=
| MsgCobra                       (* [fmt.Println("Error:", err)] *)
| MsgFlareSolverrNotRunning      (* "FlareSolverr is not running. ..." *)
| MsgSystems (e : SystemsError). (* [logger.Fatal(err)] *)

(** What cobra's [Execute] makes of the command line. *)
Inductive CommandLine :=
| FlagError       (* unknown flag, or a flag without its value: [Execute]
                     returns the error *)
| HelpRequested   (* [--help] or [-h]: the usage is printed, [Run] is not
                     called and [Execute] returns nil *)
| RunCommand.     (* [Run] is called with the flags set *)

(** The world as [main] meets it before the goroutines start. *)
Record StartupEnv := mkStartupEnv {
  commandLine : CommandLine;
  shortnameFlag : string;     (* value of [--shortname], empty if absent *)
  probe : option Z;           (* [http.Get("http://localhost:8191/")]: status, or an error *)
  systemsReply : HttpReply;   (* the proxy's answer to the systems request *)
  scanln : option string      (* [fmt.Scanln(&shortName)]: the token, or an error *)
}.

Inductive MainResult :=
| ExitedEarly (msg : FatalMessage) (status : Z)
    (* printed [msg] and called [os.Exit(status)]; no goroutine was started *)
| HelpShown
    (* cobra printed the usage and [main] returned: exit status 0, no
       goroutine was started *)
| PanickedEarly
| Launched (shortName : string) (s : State).
    (* both goroutines started for [shortName], in state [s] *)

Section Startup.
Context (lib : Decoders).

Definition isFlareSolverrRunning (p : option Z) : bool :=
  match p with
  | None => false
  | Some code => bool_decide (code = StatusOK)
  end.

Definition fetchSystems (r : HttpReply) (input : option string)
  : outcome SystemsError string :=
  match fetchJSON lib r with
  | Err e => Err (ErrFetchSystems e)
  | Panic => Panic
  | Ok body =>
      match UnmarshalSystems lib body with
      | None => Err ErrParseSystems
      | Some systemsResponse =>
          if negb (Success systemsResponse) then Err ErrApiFailure else
          match input with
          | None => Err ErrUserInput
          | Some shortName => Ok shortName
          end
      end
  end.

Definition main (env : StartupEnv) : MainResult :=
  match commandLine env with
  | FlagError => ExitedEarly MsgCobra 1
  | HelpRequested => HelpShown
  | RunCommand =>
      if negb (isFlareSolverrRunning (probe env))
      then ExitedEarly MsgFlareSolverrNotRunning 1
      else if bool_decide (shortnameFlag env = EmptyString) then
        match fetchSystems (systemsReply env) (scanln env) with
        | Err e => ExitedEarly (MsgSystems e) 1
        | Panic => PanickedEarly
        | Ok shortName => Launched shortName init
        end
      else Launched (shortnameFlag env) init
  end.

End Startup.

(** ** [playAudio] with download and transcode

    The two other revisions of main.go write the recording and its MP3
    under the download folder before playing.  The file system is the set
    of paths that exist. *)

(** [strings.TrimSuffix]. *)
Definition HasSuffix (s suffix : string) : bool :=
  bool_decide (String.length suffix ≤ String.length s)%nat &&
  bool_decide (String.substring (String.length s - String.length suffix)
                 (String.length suffix) s = suffix).

Definition TrimSuffix (s suffix : string) : string :=
  if HasSuffix s suffix
  then String.substring 0 (String.length s - String.length suffix) s
  else s.

(** How [downloadFile] ends. *)
Inductive DownloadResult :=
| GetFails       (* [http.Get] returns an error *)
| CreateFails    (* [os.Create] returns an error *)
| CopyFails      (* [io.Copy] returns an error: the file exists, partly written *)
| Downloaded.

(** How an [ffmpeg] run ends: it may leave its output file behind even
    when it fails. *)
Inductive ConvertResult :=
| ConvertFails (wroteOutput : bool)
| Converted.

(** What the outside world does during one iteration of the player. *)
Record PlayEnv := mkPlayEnv {
  download : DownloadResult;
  convert : ConvertResult;
  probeLength : bool;       (* [ffprobe] succeeds *)
  playback : bool;          (* [mpg123] succeeds *)
  removeOriginal : bool;    (* [os.Remove] of the recording succeeds *)
  removeMP3 : bool          (* [os.Remove] of the MP3 succeeds *)
}.

(** The stage at which an iteration left the case body. *)
Inductive PlayExit :=
| ExitDownload | ExitConvert | ExitTrackLength | ExitPlay | ExitCompleted.

Definition os_Remove (fs : gset string) (path : string) (ok : bool) : gset string :=
  if ok then fs ∖ {[path]} else fs.

(** [os.RemoveAll(path)]: [path] and everything beneath it are gone. *)
Definition os_RemoveAll (fs : gset string) (path : string) : gset string :=
  filter (λ p, p ≠ path ∧ String.prefix (path +:+ "/") p = false) fs.

(** [os.MkdirAll(path, perm)] for a [path] of one element. *)
Definition os_MkdirAll (fs : gset string) (path : string) : gset string :=
  {[path]} ∪ fs.

(** What [os.RemoveAll] and [os.MkdirAll] do at start-up. *)
Record DirEnv := mkDirEnv {
  removeAllOk : bool;
  mkdirAllOk : bool
}.

(** How the start-up of a downloading revision ends. *)
Inductive StartResult :=
| Stopped (status : Z)
    (* the process ended with [status] before any goroutine was started *)
| PanickedAtStart
| Started (shortName : string) (fs : gset string).
    (* both goroutines run for [shortName]; [fs] is what is on disk *)

Module Part001.
Section Player.
(** [filepath.Base] and [filepath.Ext]. *)
Context (Base Ext : string → string).

Definition AudioFolderPath : string := "OpenMHzPi-downloads".

(** [downloadFile]: [http.Get], then [os.Create], then [io.Copy]. *)
Definition downloadFile (fs : gset string) (filepath : string)
  (r : DownloadResult) : gset string * bool :=
match r with
| GetFails => (fs, false)
| CreateFails => (fs, false)
| CopyFails => ({[filepath]} ∪ fs, false)
| Downloaded => ({[filepath]} ∪ fs, true)
end.

Definition convertToMP3 (fs : gset string) (outputPath : string)
  (r : ConvertResult) : gset string * bool :=
match r with
| ConvertFails wrote => (if wrote then {[outputPath]} ∪ fs else fs, false)
| Converted => ({[outputPath]} ∪ fs, true)
end.

Definition filePathOf (call : Call) : string :=
AudioFolderPath +:+ "/" +:+ Base (Filename call).

Definition mp3FilePathOf (call : Call) : string :=
TrimSuffix (filePathOf call) (Ext (filePathOf call)) +:+ ".mp3".

(** The body of [case call := <-queue] in [playAudio]: the files left
  afterwards and the stage the body was left at. *)
Definition playAudio (fs : gset string) (call : Call) (env : PlayEnv)
: gset string * PlayExit :=
let filePath := filePathOf call in
let '(fs1, ok) := downloadFile fs filePath (download env) in
if negb ok then (fs1, ExitDownload) else
let mp3FilePath := mp3FilePathOf call in
let '(fs2, ok) := convertToMP3 fs1 mp3FilePath (convert env) in
if negb ok then (fs2, ExitConvert) else
if negb (probeLength env) then (fs2, ExitTrackLength) else
if negb (playback env) then (fs2, ExitPlay) else
let fs3 := os_Remove fs2 filePath (removeOriginal env) in
let fs4 := os_Remove fs3 mp3FilePath (removeMP3 env) in
(fs4, ExitCompleted).

End Player.

(** [main] up to the two [go] statements: the download folder is wiped
    and recreated, then the checks of main.go follow. *)
Definition main (lib : Decoders) (env : StartupEnv) (dirs : DirEnv)
    (fs : gset string) : StartResult :=
  match commandLine env with
  | FlagError => Stopped 1
  | HelpRequested => Stopped 0
  | RunCommand =>
      if negb (removeAllOk dirs) then Stopped 1 else
      let fs1 := os_RemoveAll fs AudioFolderPath in
      if negb (mkdirAllOk dirs) then Stopped 1 else
      let fs2 := os_MkdirAll fs1 AudioFolderPath in
      if negb (isFlareSolverrRunning (probe env)) then Stopped 1 else
      if bool_decide (shortnameFlag env = EmptyString) then
        match fetchSystems lib (systemsReply env) (scanln env) with
        | Err _ => Stopped 1
        | Panic => PanickedAtStart
        | Ok shortName => Started shortName fs2
        end
      else Started (shortnameFlag env) fs2
  end.

End Part001.

Module Part000.
Section Player.
(** The last element of [strings.Split(call.Filename, "/")], and
  [strings.Replace(path, ".m4a", ".mp3", 1)]. *)
Context (lastSegment : string → string) (replaceM4a : string → string).

(** [downloadFile]: [os.Create] first, then [http.Get], then [io.Copy]. *)
Definition downloadFile (fs : gset string) (filepath : string)
  (r : DownloadResult) : gset string * bool :=
match r with
| CreateFails => (fs, false)
| GetFails => ({[filepath]} ∪ fs, false)
| CopyFails => ({[filepath]} ∪ fs, false)
| Downloaded => ({[filepath]} ∪ fs, true)
end.

Definition m4aPathOf (call : Call) : string :=
"OpenMHzPi-downloads/" +:+ lastSegment (Filename call).

Definition mp3PathOf (call : Call) : string := replaceM4a (m4aPathOf call).

(** The body of [for call := range queue] in [playAudio]. *)
Definition playAudio (fs : gset string) (call : Call) (env : PlayEnv)
: gset string * PlayExit :=
let m4aPath := m4aPathOf call in
let mp3Path := mp3PathOf call in
let '(fs1, ok) := downloadFile fs m4aPath (download env) in
if negb ok then (fs1, ExitDownload) else
let '(fs2, ok) := Part001.convertToMP3 fs1 mp3Path (convert env) in
if negb ok then (fs2, ExitConvert) else
if negb (playback env) then (fs2, ExitPlay) else
let fs3 := os_Remove fs2 m4aPath (removeOriginal env) in
let fs4 := os_Remove fs3 mp3Path (removeMP3 env) in
(fs4, ExitCompleted).

End Player.

(** [fetchCalls], first loop of a cycle: skip what the ledger holds, mark
    the rest, and (past the first run) collect it in [callsToAdd], in
    listing order. *)
Fixpoint collectNew (firstRun : bool) (processedCalls : gmap string bool)
    (calls : list Call) : gmap string bool * list Call :=
  match calls with
  | [] => (processedCalls, [])
  | call :: rest =>
      match SyncMap.Load processedCalls (ID call) with
      | Some _ => collectNew firstRun processedCalls rest
      | None =>
          let '(m, callsToAdd) :=
            collectNew firstRun
              (SyncMap.Store processedCalls (ID call) true) rest in
          (m, if firstRun then callsToAdd else call :: callsToAdd)
      end
  end.

(** [fetchCalls], one cycle whose listing was obtained, the player not
    moving meanwhile: the ledger, the queue with the dropped calls, and
    [firstRun] afterwards.  The second loop walks [callsToAdd] from its
    last element to its first. *)
Definition fetchCycle (cap : nat) (firstRun : bool)
    (processedCalls : gmap string bool) (queue : list Call)
    (calls : list Call)
  : option (gmap string bool * (list Call * list Call) * bool) :=
  let '(m, callsToAdd) := collectNew firstRun processedCalls calls in
  r ← enqueueAll cap queue (reverse callsToAdd);
  Some (m, r, false).

(** [main]: the download folder is wiped and recreated before the command
    line is even parsed; a failure there is logged and [main] returns. *)
Definition main (lib : Decoders) (env : StartupEnv) (dirs : DirEnv)
    (fs : gset string) : StartResult :=
  if negb (removeAllOk dirs) then Stopped 0 else
  let fs1 := os_RemoveAll fs "OpenMHzPi-downloads" in
  if negb (mkdirAllOk dirs) then Stopped 0 else
  let fs2 := os_MkdirAll fs1 "OpenMHzPi-downloads" in
  match commandLine env with
  | FlagError => Stopped 1
  | HelpRequested => Stopped 0
  | RunCommand =>
      if bool_decide (shortnameFlag env = EmptyString) then
        match fetchSystems lib (systemsReply env) (scanln env) with
        | Err _ => Stopped 1
        | Panic => PanickedAtStart
        | Ok shortName => Started shortName fs2
        end
      else Started (shortnameFlag env) fs2
  end.

End Part000.

(** ** Invariants of the running program *)

(** The call the fetcher has marked but not yet put on the queue. *)
Definition pendingCall (s : State) : list Call :=
  match fetcher s with
  | FDropOldest c _ | FResend c _ => [c]
  | _ => []
  end.

(** The calls of the current listing the range loop has not reached. *)
Definition rangeRest (s : State) : list Call :=
  match fetcher s with
  | FRange rest | FDropOldest _ rest | FResend _ rest => rest
  | _ => []
  end.

(** The fetcher is at (or past) its outer [select]. *)
Definition idle (s : State) : Prop :=
  match fetcher s with
  | FWait _ | FStopped => True
  | _ => False
  end.

(** [c] occurs in some listing obtained in steady state. *)
Definition from_steady (tr : list Event) (c : Call) : Prop :=
  ∃ L, (false, L) ∈ listings tr ∧ c ∈ L.

(** The ledger invariant: what has been marked, and how the marks relate
    to what was put on the queue. *)
Definition ledger_inv (tr : list Event) (s : State) : Prop :=
  (isFirstRun s = true → news tr = [] ∧ pendingCall s = []) ∧
  news tr = ID <$> (enqs tr ++ pendingCall s) ∧
  NoDup (news tr) ∧
  (∀ id, id ∈ news tr → is_Some (processedCalls s !! id)) ∧
  (∀ id, id ∈ primed tr → is_Some (processedCalls s !! id)) ∧
  (∀ id, id ∈ primed tr → id ∉ news tr).

(** The FIFO invariant: the enqueued calls that were not dropped are, in
    enqueue order, the played calls followed by the queue. *)
Definition fifo_inv (tr : list Event) (s : State) : Prop :=
  (∀ c, c ∈ evicts tr → c ∈ enqs tr) ∧
  filter (λ c, c ∉ evicts tr) (enqs tr) = deqs tr ++ queue s.

(** The mode invariant: before any listing was obtained the fetcher is
    idle, priming, and nothing has been marked or queued; the first
    listing obtained is the priming one and every later one is steady. *)
Definition mode_inv (tr : list Event) (s : State) : Prop :=
  match listings tr with
  | [] =>
      isFirstRun s = true ∧ idle s ∧ processedCalls s = ∅ ∧ queue s = []
  | (p, _) :: rest =>
      p = true ∧ Forall (λ x, x.1 = false) rest ∧
      (isFirstRun s = true → ¬ idle s ∧ rest = [])
  end.

(** Which goroutine an action belongs to. *)
Definition fetcher_action (a : Action) : Prop :=
  match a with
  | AFetcherDone | AFetcherTick _ | AFetcherStep => True
  | _ => False
  end.

Definition player_action (a : Action) : Prop :=
  match a with
  | APlayerDone | APlayerRecv | APlayerFinish _ => True
  | _ => False
  end.

(** "Once [done] is closed, a loop standing at its select leaves through
    the shutdown case": whatever move a waiting loop makes after the
    signal is its exit. *)
Definition stops_at_next_wait (lib : Decoders) (cap : nat) : Prop :=
  ∀ tr s a s' evs,
    reaches lib cap init tr s → done s = true →
    step lib cap s a = Some (s', evs) →
    (player s = PWait → player_action a → player s' = PStopped) ∧
    (∀ b, fetcher s = FWait b → fetcher_action a → fetcher s' = FStopped).

(** ** A concrete world for the examples

    Stand-ins for the library decoders: [Unquote] strips the surrounding
    quotes (a lone backslash does not unquote), and every byte of a body
    is the ID of one call ("!" does not parse). *)

Definition callOf (id : string) : Call :=
  mkCall id EmptyString EmptyString EmptyString.

Definition sampleDecoders : Decoders := {|
  Unquote := λ s,
    if bool_decide (s = dquote +:+ "\" +:+ dquote) then None
    else Some (String.substring 1 (String.length s - 2) s);
  UnmarshalCalls := λ body,
    if bool_decide (body = "!") then None
    else Some ((λ ch, callOf (String ch EmptyString)) <$> String.list_ascii_of_string body);
  UnmarshalSystems := λ body,
    if bool_decide (body = "!") then None
    else Some (mkSystemsResponse (bool_decide (body ≠ "0")) [])
|}.

Definition callA : Call := callOf "A".
Definition callB : Call := callOf "B".
Definition callC : Call := callOf "C".

(** The proxy answers with the listing [ids], one byte per call. *)
Definition replyOf (ids : string) : HttpReply :=
  Reply 200 (Some ("<html><pre>" +:+ ids +:+ "</pre></html>")).

(** A first cycle that sees [A], a second that sees [A; B; C], with the
    player taking [B] in between the two enqueues. *)
Definition sampleSchedule : list Action :=
  [ATimer; AFetcherTick (replyOf "A"); AFetcherStep; AFetcherStep;
   ATimer; AFetcherTick (replyOf "ABC"); AFetcherStep; AFetcherStep;
   APlayerRecv; AFetcherStep; AFetcherStep; APlayerFinish Played].

Definition sampleRun : State * list Event :=
  default (init, []) (run sampleDecoders MaxQueueSize init sampleSchedule).

Definition callX : Call := callOf "X".
Definition callY : Call := callOf "Y".
Definition callZ : Call := callOf "Z".

(** Three cycles that fail in three different ways. *)
Definition failingSchedule : list Action :=
  [ATimer; AFetcherTick DoFails;
   ATimer; AFetcherTick (Reply 503 None);
   ATimer; AFetcherTick (replyOf "!")].

Definition failingRun : State * list Event :=
  default (init, []) (run sampleDecoders MaxQueueSize init failingSchedule).

(** Three failed cycles, the priming cycle that lists [A], and a steady
    cycle that lists [A; B]. *)
Definition lateSteadySchedule : list Action :=
  failingSchedule ++
  [ATimer; AFetcherTick (replyOf "A"); AFetcherStep; AFetcherStep;
   ATimer; AFetcherTick (replyOf "AB");
   AFetcherStep; AFetcherStep; AFetcherStep].

Definition lateSteadyRun : State * list Event :=
  default (init, []) (run sampleDecoders MaxQueueSize init lateSteadySchedule).

(** Three failed cycles, and the interval has elapsed again. *)
Definition retryRun : State * list Event :=
  default (init, [])
    (run sampleDecoders MaxQueueSize init (failingSchedule ++ [ATimer])).

(** An empty priming listing, a cycle that queues [A] and [B], the player
    takes [A], and the signal arrives while [A] is playing. *)
Definition shutdownSchedule : list Action :=
  [ATimer; AFetcherTick (replyOf EmptyString); AFetcherStep;
   ATimer; AFetcherTick (replyOf "AB"); AFetcherStep; AFetcherStep; AFetcherStep;
   APlayerRecv; ASignal; APlayerFinish Played].

Definition shutdownRun : State * list Event :=
  default (init, []) (run sampleDecoders MaxQueueSize init shutdownSchedule).

(** The signal arrives while both loops wait and the queue is empty. *)
Definition quietShutdown : State :=
  (default (init, []) (run sampleDecoders MaxQueueSize init [ASignal])).1.

(** A response whose closing marker comes before the opening one. *)
Definition reversedMarkers : HttpReply := Reply 200 (Some "</pre><pre>").


(** The calls whose case body in [playAudio] has ended, in order. *)
Definition finished (tr : list Event) : list Call :=
  omap (λ e, match e with
             | EvPlayed c | EvPlayFailed c => Some c
             | _ => None
             end) tr.

(** The call the player holds, if any. *)
Definition playing (s : State) : list Call :=
  match player s with
  | PPlaying c => [c]
  | _ => []
  end.

(** Fifty-one calls in one listing with a queue of fifty: the fetcher
    takes the [default] branch on the last one, and the player then plays
    all fifty queued calls before the fetcher runs its receive. *)
Definition crowdedListing : string :=
  "0123456789abcdefghijklmnopqrstuvwxyzABCDEFGHIJKLMNO".

Definition drainedSchedule : list Action :=
  [ATimer; AFetcherTick (replyOf EmptyString); AFetcherStep;
   ATimer; AFetcherTick (replyOf crowdedListing)] ++
  replicate 51 AFetcherStep ++
  concat (replicate 50 [APlayerRecv; APlayerFinish Played]).

Definition drainedRun : State * list Event :=
  default (init, []) (run sampleDecoders MaxQueueSize init drainedSchedule).

(** ** More of the concrete world *)

(** A queue of capacity one: [A] is queued, [B] does not fit, and the
    fetcher has dropped [A] and stands before its blocking send. *)
Definition resendSchedule : list Action :=
  [ATimer; AFetcherTick (replyOf EmptyString); AFetcherStep;
   ATimer; AFetcherTick (replyOf "AB");
   AFetcherStep; AFetcherStep; AFetcherStep].

Definition resendRun : State * list Event :=
  default (init, []) (run sampleDecoders 1 init resendSchedule).

(** What follows the drained queue when the signal arrives. *)
Definition afterDrained : State * list Event :=
  default (init, [])
    (run sampleDecoders MaxQueueSize drainedRun.1 [ASignal; APlayerDone]).

(** A start without [--shortname]: the proxy is up, the listing parses
    and the user types a name. *)
Definition promptedStart : StartupEnv :=
  mkStartupEnv RunCommand EmptyString (Some StatusOK) (replyOf "1")
    (Some "kcers1b").

(** A start with [--shortname]. *)
Definition flaggedStart : StartupEnv :=
  mkStartupEnv RunCommand "kcers1b" (Some StatusOK) DoFails None.

(** Stand-ins for [filepath.Base] and [filepath.Ext] on names without a
    directory part. *)
Definition sampleBase (path : string) : string := path.
Definition sampleExt (path : string) : string :=
  String.substring (String.length path - 4) 4 path.

Definition recording : Call :=
  mkCall "r1" "https://example.org/r1.m4a" "r1.m4a" EmptyString.
Definition mp3Recording : Call :=
  mkCall "r2" "https://example.org/r2.mp3" "r2.mp3" EmptyString.

(** The transcode fails after a successful download. *)
Definition failedTranscode : PlayEnv :=
  mkPlayEnv Downloaded (ConvertFails true) true true true true.
Definition allGood : PlayEnv :=
  mkPlayEnv Downloaded Converted true true true true.

(** * Properties *)

(** ** Channel and ledger primitives *)

Lemma try_send_Some cap buf v buf' :
  Chan.try_send cap buf v = Some buf' ↔
  (List.length buf < cap)%nat ∧ buf' = buf ++ [v].
Proof.
  unfold Chan.try_send. case_bool_decide; [|split; [done|intros []; lia]].
  split; [intros [= <-]; done | intros [_ ->]; done].
Qed.

Lemma try_send_None cap buf v :
  Chan.try_send cap buf v = None ↔ (cap ≤ List.length buf)%nat.
Proof.
  unfold Chan.try_send. case_bool_decide; split; intros; try done; lia.
Qed.

Lemma recv_Some buf v buf' :
  Chan.recv buf = Some (v, buf') ↔ buf = v :: buf'.
Proof. destruct buf; simpl; naive_solver. Qed.

Lemma LoadOrStore_new m key value :
  m !! key = None →
  SyncMap.LoadOrStore m key value = (<[key := value]> m, value, false).
Proof. intros H. unfold SyncMap.LoadOrStore. by rewrite H. Qed.

Lemma LoadOrStore_seen m key value actual :
  m !! key = Some actual →
  SyncMap.LoadOrStore m key value = (m, actual, true).
Proof. intros H. unfold SyncMap.LoadOrStore. by rewrite H. Qed.

(** ** Lists *)

Lemma filter_all {A} (P : A → Prop) `{!∀ x, Decision (P x)} (l : list A) :
  Forall P l → filter P l = l.
Proof.
  induction 1 as [|x l Hx _ IH]; [done|].
  by rewrite filter_cons_True, IH.
Qed.

Lemma filter_remove_one {A} `{!EqDecision A} (h : A) (d t : list A) :
  h ∉ d → h ∉ t → filter (λ c, c ≠ h) (d ++ h :: t) = d ++ t.
Proof.
  intros Hd Ht. rewrite filter_app, filter_cons_False by (intros Hne; by apply Hne).
  rewrite !filter_all; [done| |]; apply Forall_forall; intros x Hx ->; done.
Qed.

Lemma filter_notin_snoc {A} `{!EqDecision A} (l xs : list A) (h : A) :
  filter (λ c, c ∉ l ++ [h]) xs = filter (λ c, c ≠ h) (filter (λ c, c ∉ l) xs).
Proof.
  rewrite list_filter_filter. apply list_filter_iff. intros x.
  rewrite elem_of_app, list_elem_of_singleton. tauto.
Qed.

(** ** Trace projections *)

Lemma enqs_app tr1 tr2 : enqs (tr1 ++ tr2) = enqs tr1 ++ enqs tr2.
Proof. apply omap_app. Qed.
Lemma evicts_app tr1 tr2 : evicts (tr1 ++ tr2) = evicts tr1 ++ evicts tr2.
Proof. apply omap_app. Qed.
Lemma deqs_app tr1 tr2 : deqs (tr1 ++ tr2) = deqs tr1 ++ deqs tr2.
Proof. apply omap_app. Qed.
Lemma primed_app tr1 tr2 : primed (tr1 ++ tr2) = primed tr1 ++ primed tr2.
Proof. apply omap_app. Qed.
Lemma news_app tr1 tr2 : news (tr1 ++ tr2) = news tr1 ++ news tr2.
Proof. apply omap_app. Qed.
Lemma listings_app tr1 tr2 :
  listings (tr1 ++ tr2) = listings tr1 ++ listings tr2.
Proof. apply omap_app. Qed.

(** ** Case analysis of one move *)

Lemma from_steady_app_l tr evs c : from_steady tr c → from_steady (tr ++ evs) c.
Proof.
  intros (L & HL & Hc). exists L. split; [|done].
  rewrite listings_app. apply elem_of_app. by left.
Qed.

Lemma from_steady_new tr L c :
  c ∈ L → from_steady (tr ++ [EvListing false L]) c.
Proof.
  intros Hc. exists L. split; [|done].
  rewrite listings_app. apply elem_of_app. right. simpl. left.
Qed.

Ltac unfold_step :=
  unfold step, fetchCalls, playAudio, mainWait, timerFires.

Ltac destruct_match_in H :=
  match type of H with
  | context [Chan.recv ?q ≫= _] => destruct (Chan.recv q) as [[??]|] eqn:?
  | context [Chan.send ?c ?q ?v ≫= _] => destruct (Chan.send c q v) eqn:?
  | context [Chan.try_send ?c ?q ?v] => destruct (Chan.try_send c q v) eqn:?
  | context [@lookup _ _ (gmap _ _) _ ?k ?m] => destruct (m !! k) eqn:?
  | context [match ?x with _ => _ end] => destruct x eqn:?
  end.

Ltac step_inv H :=
  unfold step, fetchCalls, fetchCalls_range, playAudio, mainWait, timerFires,
    SyncMap.LoadOrStore, SyncMap.Store in H;
  simpl in H;
  repeat (destruct_match_in H; simpl in H; try discriminate H);
  try (injection H as <- <-);
  repeat match goal with
    | H : Chan.try_send _ _ _ = Some _ |- _ => apply try_send_Some in H as [? ->]
    | H : Chan.send _ _ _ = Some _ |- _ => apply try_send_Some in H as [? ->]
    | H : Chan.try_send _ _ _ = None |- _ => apply try_send_None in H
    | H : Chan.recv _ = Some _ |- _ => apply recv_Some in H as ->
    end;
  simplify_eq/=.

Section Invariants.
Context (lib : Decoders) (cap : nat).

#[local] Abbreviation reaches := (reaches lib cap).
#[local] Abbreviation step := (step lib cap).

(** Run and reachability agree. *)
Lemma run_reaches_from s0 tr0 s sched s' evs :
  reaches s0 tr0 s →
  run lib cap s sched = Some (s', evs) →
  reaches s0 (tr0 ++ evs) s'.
Proof.
  revert s tr0 s' evs. induction sched as [|a sched IH]; intros s tr0 s' evs Hr Hrun.
  - simpl in Hrun. injection Hrun as <- <-. by rewrite app_nil_r.
  - simpl in Hrun.
    destruct (step s a) as [[s1 evs1]|] eqn:Hstep; [|done]. simpl in Hrun.
    destruct (run lib cap s1 sched) as [[s2 evs2]|] eqn:Hrest; [|done].
    simpl in Hrun. injection Hrun as <- <-.
    rewrite app_assoc. eapply IH; [|done].
    by eapply reaches_step.
Qed.

Lemma run_reaches s sched s' evs :
  run lib cap s sched = Some (s', evs) → reaches s evs s'.
Proof.
  intros H. apply (run_reaches_from s [] s sched s' evs); [constructor|done].
Qed.

(** The queue never holds more than [cap] calls; the fetcher is past
    priming whenever it holds a marked call. *)
Lemma queue_bounded tr s :
  reaches init tr s → (List.length (queue s) ≤ cap)%nat.
Proof.
  induction 1 as [|tr s1 a s2 evs Hr IH Hstep]; [simpl; lia|].
  destruct s1 as [pr dn q pc fr f p m]; simpl in *.
  step_inv Hstep; rewrite ?length_app; simpl; lia.
Qed.

Lemma is_Some_insert_mono (pc : gmap string bool) k id :
  is_Some (pc !! id) → is_Some (<[k := true]> pc !! id).
Proof. rewrite lookup_insert_is_Some'. by right. Qed.

Lemma ledger_inv_reaches tr s : reaches init tr s → ledger_inv tr s.
Proof.
  induction 1 as [|tr s1 a s2 evs Hr IH Hstep].
  { unfold ledger_inv; simpl. split_and!; try done; try constructor;
      intros ? []%elem_of_nil. }
  destruct IH as (HA & HB & HC & HD & HE & HF).
  destruct s1 as [pr dn q pc fr f p m]; simpl in *.
  unfold pendingCall in *; simpl in *.
  assert (Hfresh : ∀ k, pc !! k = None → (k ∉ news tr) ∧ (k ∉ primed tr)).
  { intros k Hk; split; intros Hin; [apply HD in Hin|apply HE in Hin];
      rewrite Hk in Hin; by destruct Hin. }
  step_inv Hstep; unfold ledger_inv, pendingCall; simpl;
    rewrite ?news_app, ?enqs_app, ?primed_app; simpl; rewrite ?app_nil_r in *.
  all: try (split_and!; done).
  all: try match goal with
         | H : _ !! _ = None |- _ => apply Hfresh in H as [??]
         end.
  all: try (destruct HA as [HA _]; [done|]; rewrite HA in *).
  all: split_and!.
  all: try done.
  all: try (by intros [=]).
  all: try (rewrite ?fmap_app in *; simpl in *; congruence).
  all: try (apply NoDup_app; split_and!;
            [done | by intros ? ? ->%list_elem_of_singleton
            | apply NoDup_singleton]).
  all: try (intros id Hin; apply is_Some_insert_mono; by auto).
  all: try (intros id [Hin| ->%list_elem_of_singleton]%elem_of_app;
            [apply is_Some_insert_mono; by auto
            | rewrite lookup_insert_is_Some'; by left]).
  all: try (intros id Hin [Hn| ->%list_elem_of_singleton]%elem_of_app;
            [by eapply HF | done]).
  all: try (intros ? ?; apply not_elem_of_nil).
  all: intros Hfr; by destruct (HA Hfr) as [? [=]].
Qed.

(** Enqueued calls are pairwise distinct, by identity. *)
Lemma enqs_NoDup tr s : reaches init tr s → NoDup (ID <$> enqs tr).
Proof.
  intros (_ & HB & HC & _)%ledger_inv_reaches.
  rewrite HB, fmap_app in HC. by apply NoDup_app in HC as [? _].
Qed.

Lemma fifo_inv_reaches tr s : reaches init tr s → fifo_inv tr s.
Proof.
  induction 1 as [|tr s1 a s2 evs Hr IH Hstep].
  { split; [intros ? []%elem_of_nil|done]. }
  pose proof (enqs_NoDup _ _ (reaches_step _ _ _ _ _ _ _ _ Hr Hstep)) as Hnd.
  apply NoDup_fmap_1 in Hnd.
  destruct IH as [Hsub HF].
  destruct s1 as [pr dn q pc fr f p m]; simpl in *.
  step_inv Hstep; unfold fifo_inv; simpl;
    rewrite ?enqs_app, ?evicts_app, ?deqs_app in *; simpl in *;
    rewrite ?app_nil_r in *.
  all: try (split; done).
  all: split.
  all: try (intros c' Hc'; apply elem_of_app; left; by auto).
  all: try done.
  all: try (rewrite HF, <- app_assoc; done).
  all: try (apply NoDup_app in Hnd as (_ & Hnew & _);
            rewrite filter_app, HF, filter_cons_True, filter_nil, <- ?app_assoc;
            [done|];
            intros Hev%Hsub; by apply (Hnew _ Hev), list_elem_of_singleton).
  - intros c' [?| ->%list_elem_of_singleton]%elem_of_app; [by auto|].
    assert (Hin : c ∈ filter (λ c1, c1 ∉ evicts tr) (enqs tr))
      by (rewrite HF; apply elem_of_app; right; left).
    by apply list_elem_of_filter in Hin as [_ ?].
  - rewrite filter_notin_snoc, HF.
    pose proof (NoDup_filter (λ c1, c1 ∉ evicts tr) _ Hnd) as Hnd'.
    rewrite HF in Hnd'. apply NoDup_app in Hnd' as (_ & Hd & [Hl _]%NoDup_cons).
    apply filter_remove_one; [|done].
    intros Hin. apply (Hd _ Hin). left.
Qed.

(** Every call of a priming listing has been marked, or is still ahead
    of the range loop of that same priming cycle. *)
Lemma priming_listing_inv tr s :
  reaches init tr s →
  ∀ L c, (true, L) ∈ listings tr → c ∈ L →
    ID c ∈ primed tr ∨ (isFirstRun s = true ∧ c ∈ rangeRest s).
Proof.
  induction 1 as [|tr s1 a s2 evs Hr IH Hstep]; intros L x HL Hx.
  { by apply elem_of_nil in HL. }
  destruct s1 as [pr dn q pc fr f p m]; unfold rangeRest in *; simpl in *.
  step_inv Hstep; rewrite ?listings_app, ?primed_app in *; simpl in *;
    rewrite ?app_nil_r in *.
  all: try (by eapply IH).
  all: try (destruct (IH _ _ HL Hx) as [Hl|[Hfr Hin]];
            [ left; rewrite ?elem_of_app; by auto
            | try discriminate Hfr;
              rewrite ?elem_of_cons, ?elem_of_nil in Hin;
              rewrite ?elem_of_app, ?list_elem_of_singleton;
              intuition (subst; auto) ]).
  all: apply elem_of_app in HL as [HL|HL%list_elem_of_singleton];
    [ destruct (IH _ _ HL Hx) as [?|[_ []%elem_of_nil]]; by left
    | injection HL as <- <-; by right ].
Qed.

(** Whatever is enqueued, or about to be, came from a steady-state
    listing. *)
Lemma steady_listing_inv tr s :
  reaches init tr s →
  (∀ c, c ∈ enqs tr → from_steady tr c) ∧
  (isFirstRun s = false →
   ∀ c, c ∈ pendingCall s ++ rangeRest s → from_steady tr c).
Proof.
  induction 1 as [|tr s1 a s2 evs Hr IH Hstep].
  { split; [intros ? []%elem_of_nil|done]. }
  destruct IH as [IH1 IH2].
  assert (IH1' : ∀ c, c ∈ enqs tr → from_steady (tr ++ evs) c)
    by (intros; by apply from_steady_app_l, IH1).
  assert (IH2' : isFirstRun s1 = false →
            ∀ c, c ∈ pendingCall s1 ++ rangeRest s1 → from_steady (tr ++ evs) c)
    by (intros; by apply from_steady_app_l, IH2).
  clear IH1 IH2.
  pose proof (ledger_inv_reaches _ _ Hr) as (HA & _).
  destruct s1 as [pr dn q pc fr f p m];
    unfold rangeRest, pendingCall in *; simpl in *.
  step_inv Hstep; rewrite ?enqs_app; simpl; rewrite ?app_nil_r in *.
  all: try (split; [done | by intros ? ? []%elem_of_nil]).
  all: try (split; [done | intros ->; by apply from_steady_new]).
  all: try (split; [done | intros Hfr c' Hc'; apply (IH2' Hfr); simpl;
                           rewrite ?elem_of_cons in *; tauto]).
  all: split;
    [ intros c' [?| ->%list_elem_of_singleton]%elem_of_app; [by auto|]
    | intros Hfr c' Hc'; apply (IH2' Hfr); simpl;
      rewrite ?elem_of_cons in *; tauto ].
  all: try (apply IH2'; [done|]; simpl; rewrite ?elem_of_cons; tauto).
  all: destruct fr; [by destruct HA as [_ [=]]|].
  all: apply IH2'; [done|]; simpl; rewrite ?elem_of_cons; tauto.
Qed.

Lemma mode_inv_reaches tr s : reaches init tr s → mode_inv tr s.
Proof.
  induction 1 as [|tr s1 a s2 evs Hr IH Hstep]; [done|].
  unfold mode_inv in *.
  destruct s1 as [pr dn q pc fr f p m]; unfold idle in *; simpl in *.
  step_inv Hstep; rewrite ?listings_app; simpl; rewrite ?app_nil_r.
  all: destruct (listings tr) as [|[p0 L0] ls]; simpl in *.
  all: try (by destruct IH as (_ & [] & _)).
  all: try (by destruct IH as (_ & _ & _ & [=])).
  all: try exact IH.
  all: try (destruct IH as (? & ? & _); split_and!; [done | done | by intros [=]]).
  all: try (destruct IH as (-> & _); split_and!;
            [done | constructor | intros _; split; [tauto | done]]).
  all: destruct IH as (-> & HF & Himp); destruct fr;
    [ by destruct Himp as [[] _]
    | split_and!;
      [ done
      | apply Forall_app; split; [done | by constructor]
      | by intros [=] ] ].
Qed.

End Invariants.


(** ** One statement of the range loop, case by case *)

Section FetcherSteps.
Context (cap : nat).

Lemma fetchCalls_range_prime s call rest :
  isFirstRun s = true → fetcher s = FRange (call :: rest) →
  fetchCalls_range cap s =
    Some (with_fetcher
            (with_processedCalls s (<[ID call := true]> (processedCalls s)))
            (FRange rest),
          [EvPrimed (ID call)]).
Proof. intros Hf Hr. unfold fetchCalls_range. by rewrite Hr, Hf. Qed.

Lemma fetchCalls_range_seen s call rest :
  isFirstRun s = false → fetcher s = FRange (call :: rest) →
  is_Some (processedCalls s !! ID call) →
  fetchCalls_range cap s = Some (with_fetcher s (FRange rest), [EvSeen (ID call)]).
Proof.
  intros Hf Hr [b Hb]. unfold fetchCalls_range.
  by rewrite Hr, Hf, (LoadOrStore_seen _ _ _ _ Hb).
Qed.

Lemma fetchCalls_range_new_room s call rest :
  isFirstRun s = false → fetcher s = FRange (call :: rest) →
  processedCalls s !! ID call = None →
  (length (queue s) < cap)%nat →
  fetchCalls_range cap s =
    Some (with_fetcher
            (with_queue
               (with_processedCalls s (<[ID call := true]> (processedCalls s)))
               (queue s ++ [call]))
            (FRange rest),
          [EvNew (ID call); EvEnq call]).
Proof.
  intros Hf Hr Hn Hlen. unfold fetchCalls_range.
  rewrite Hr, Hf, (LoadOrStore_new _ _ _ Hn).
  by rewrite (proj2 (try_send_Some cap (queue s) call _) (conj Hlen eq_refl)).
Qed.

Lemma fetchCalls_range_new_full s call rest :
  isFirstRun s = false → fetcher s = FRange (call :: rest) →
  processedCalls s !! ID call = None →
  (cap ≤ length (queue s))%nat →
  fetchCalls_range cap s =
    Some (with_fetcher
            (with_processedCalls s (<[ID call := true]> (processedCalls s)))
            (FDropOldest call rest),
          [EvNew (ID call)]).
Proof.
  intros Hf Hr Hn Hlen. unfold fetchCalls_range.
  rewrite Hr, Hf, (LoadOrStore_new _ _ _ Hn).
  by rewrite (proj2 (try_send_None cap (queue s) call) Hlen).
Qed.

End FetcherSteps.

Section Steps.
Context (lib : Decoders) (cap : nat).

Lemma step_timer s :
  process s = Alive → fetcher s = FWait false →
  step lib cap s ATimer = Some (with_fetcher s (FWait true), []).
Proof. intros Hp Hf. unfold_step. by rewrite Hp, Hf. Qed.

Lemma step_tick_ok s r calls :
  process s = Alive → fetcher s = FWait true →
  fetchListing lib r = Ok calls →
  step lib cap s (AFetcherTick r) =
    Some (with_fetcher s (FRange calls), [EvListing (isFirstRun s) calls]).
Proof. intros Hp Hf Hr. unfold_step. by rewrite Hp, Hf, Hr. Qed.

Lemma step_tick_err s r e :
  process s = Alive → fetcher s = FWait true →
  fetchListing lib r = Err e →
  step lib cap s (AFetcherTick r) =
    Some (with_fetcher s (FWait false), [EvFetchFailed e]).
Proof. intros Hp Hf Hr. unfold_step. by rewrite Hp, Hf, Hr. Qed.

Lemma step_tick_panic s r :
  process s = Alive → fetcher s = FWait true →
  fetchListing lib r = Panic →
  step lib cap s (AFetcherTick r) = Some (with_process s (Exited 2), [EvCrash]).
Proof. intros Hp Hf Hr. unfold_step. by rewrite Hp, Hf, Hr. Qed.

Lemma step_fetcher s :
  process s = Alive → step lib cap s AFetcherStep = fetchCalls_range cap s.
Proof. intros Hp. unfold_step. by rewrite Hp. Qed.

Lemma fetchCalls_range_end s :
  fetcher s = FRange [] →
  fetchCalls_range cap s =
    Some (with_fetcher (with_isFirstRun s false) (FWait false), []).
Proof. intros Hf. unfold fetchCalls_range. by rewrite Hf. Qed.

End Steps.

Lemma run_cons lib cap s a sched s1 evs1 s2 evs2 :
  step lib cap s a = Some (s1, evs1) →
  run lib cap s1 sched = Some (s2, evs2) →
  run lib cap s (a :: sched) = Some (s2, evs1 ++ evs2).
Proof. intros H1 H2. simpl. rewrite H1. simpl. by rewrite H2. Qed.

(** ** The bounded queue *)

Lemma tryEnqueue_room cap queue call :
  (length queue < cap)%nat →
  tryEnqueue cap queue call = Some (queue ++ [call], None).
Proof.
  intros H. unfold tryEnqueue.
  by rewrite (proj2 (try_send_Some cap queue call _) (conj H eq_refl)).
Qed.

Lemma tryEnqueue_full cap oldest queue call :
  (0 < cap)%nat → length (oldest :: queue) = cap →
  tryEnqueue cap (oldest :: queue) call = Some (queue ++ [call], Some oldest).
Proof.
  intros Hpos Hlen. unfold tryEnqueue.
  rewrite (proj2 (try_send_None cap (oldest :: queue) call)) by lia.
  simpl in *. unfold Chan.send.
  assert (Hroom : (length queue < cap)%nat) by lia.
  by rewrite (proj2 (try_send_Some cap queue call _) (conj Hroom eq_refl)).
Qed.

(** The three moves the fetcher makes on a full queue are [tryEnqueue]
    when the player does not move in between. *)
Lemma fetcher_drop_oldest_run lib cap s call rest oldest queue' :
  process s = Alive → isFirstRun s = false →
  fetcher s = FRange (call :: rest) →
  processedCalls s !! ID call = None →
  queue s = oldest :: queue' → length (queue s) = cap →
  ∃ s',
    run lib cap s [AFetcherStep; AFetcherStep; AFetcherStep] =
      Some (s', [EvNew (ID call); EvEvict oldest; EvEnq call]) ∧
    tryEnqueue cap (queue s) call = Some (queue s', Some oldest) ∧
    queue s' = queue' ++ [call] ∧
    fetcher s' = FRange rest.
Proof.
  intros Hp Hf Hr Hn Hq Hlen.
  destruct s as [pr dn q pc fr f p m].
  simpl in Hp, Hf, Hr, Hn, Hq, Hlen. subst.
  eexists. split_and!.
  - eapply (run_cons _ _ _ _ _ _ [EvNew (ID call)] _ [EvEvict oldest; EvEnq call]).
    { simpl. apply fetchCalls_range_new_full; simpl; done. }
    eapply (run_cons _ _ _ _ _ _ [EvEvict oldest] _ [EvEnq call]).
    { simpl. reflexivity. }
    eapply (run_cons _ _ _ _ _ _ [EvEnq call] _ []); [|reflexivity].
    unfold step, fetchCalls, fetchCalls_range; simpl. unfold Chan.send.
    rewrite (proj2 (try_send_Some (S (length queue')) queue' call _)
               (conj (Nat.lt_succ_diag_r _) eq_refl)).
    reflexivity.
  - simpl queue. rewrite tryEnqueue_full; simpl; [done|lia|done].
  - done.
  - done.
Qed.

(** C5: the length of the bounded call queue is at most its capacity in
    every state the program can reach from its start, whatever the
    interleaving of the fetcher's enqueues and drops with the player's
    dequeues; and the enqueue operation itself keeps the bound. *)
Theorem queue_length_le_capacity :
  (∀ lib cap tr s,
     reaches lib cap init tr s → (length (queue s) ≤ cap)%nat) ∧
  (∀ cap queue call queue' dropped,
     (length queue ≤ cap)%nat →
     tryEnqueue cap queue call = Some (queue', dropped) →
     (length queue' ≤ cap)%nat).
Proof.
  split.
  - intros lib cap tr s. apply queue_bounded.
  - intros cap queue call queue' dropped Hlen. unfold tryEnqueue.
    destruct (Chan.try_send cap queue call) as [q1|] eqn:H1.
    + apply try_send_Some in H1 as [? ->]. intros [= <- <-].
      rewrite length_app. simpl. lia.
    + destruct queue as [|oldest q0]; simpl; [done|].
      unfold Chan.send.
      destruct (Chan.try_send cap q0 call) as [q2|] eqn:H2; simpl; [|done].
      apply try_send_Some in H2 as [? ->]. intros [= <- <-].
      rewrite length_app. simpl. lia.
Qed.

Lemma queue_length_le_capacity_witness :
  (length (queue sampleRun.1) ≤ MaxQueueSize)%nat ∧
  (length [callB; callC] ≤ 2)%nat.
Proof.
  split.
  - apply (proj1 queue_length_le_capacity sampleDecoders MaxQueueSize
             sampleRun.2 sampleRun.1).
    apply run_reaches with sampleSchedule. vm_compute. reflexivity.
  - apply (proj2 queue_length_le_capacity 2%nat [callA; callB] callC
             [callB; callC] (Some callA)).
    + simpl. lia.
    + vm_compute. reflexivity.
Defined.

(** The drop statement [<-queue] takes exactly the element at the head,
    whatever the player did in between. *)
Lemma drop_step_takes_head lib cap s call rest s' evs :
  fetcher s = FDropOldest call rest →
  step lib cap s AFetcherStep = Some (s', evs) →
  ∃ oldest,
    queue s = oldest :: queue s' ∧ evs = [EvEvict oldest] ∧
    fetcher s' = FResend call rest.
Proof.
  intros Hf Hstep. destruct s as [pr dn q pc fr f p m]; simpl in *. subst.
  step_inv Hstep. by eexists.
Qed.

(** C2: enqueuing into a full queue removes exactly the head (the oldest
    pending call) and appends the new call at the tail, so exactly one
    element leaves and the length stays at the capacity; with capacity 2,
    enqueuing A, B, C in a row leaves [B; C] and drops A.  In the running
    program the fetcher's three statements on a full queue do just that,
    and its drop statement never takes more than the head. *)
Theorem enqueue_full_drops_exactly_head :
  (∀ cap queue call,
     (0 < cap)%nat → length queue = cap →
     ∃ oldest rest,
       queue = oldest :: rest ∧
       tryEnqueue cap queue call = Some (rest ++ [call], Some oldest) ∧
       length (rest ++ [call]) = cap) ∧
  (∀ A B C : Call, enqueueAll 2 [] [A; B; C] = Some ([B; C], [A])) ∧
  (∀ lib cap s call rest oldest queue',
     process s = Alive → isFirstRun s = false →
     fetcher s = FRange (call :: rest) →
     processedCalls s !! ID call = None →
     queue s = oldest :: queue' → length (queue s) = cap →
     ∃ s',
       run lib cap s [AFetcherStep; AFetcherStep; AFetcherStep] =
         Some (s', [EvNew (ID call); EvEvict oldest; EvEnq call]) ∧
       tryEnqueue cap (queue s) call = Some (queue s', Some oldest) ∧
       queue s' = queue' ++ [call] ∧
       fetcher s' = FRange rest) ∧
  (∀ lib cap s call rest s' evs,
     fetcher s = FDropOldest call rest →
     step lib cap s AFetcherStep = Some (s', evs) →
     ∃ oldest,
       queue s = oldest :: queue s' ∧ evs = [EvEvict oldest] ∧
       fetcher s' = FResend call rest).
Proof.
  split_and!.
  - intros cap queue call Hpos Hlen.
    destruct queue as [|oldest rest]; [simpl in Hlen; lia|].
    exists oldest, rest. split_and!; [done| |].
    + by apply tryEnqueue_full.
    + rewrite length_app. simpl in *. lia.
  - intros A B C. reflexivity.
  - apply fetcher_drop_oldest_run.
  - apply drop_step_takes_head.
Qed.

Lemma enqueue_full_drops_exactly_head_witness :
  ∃ oldest rest,
    [callA; callB] = oldest :: rest ∧
    tryEnqueue 2 [callA; callB] callC = Some (rest ++ [callC], Some oldest) ∧
    length (rest ++ [callC]) = 2%nat.
Proof.
  apply (proj1 enqueue_full_drops_exactly_head 2%nat [callA; callB] callC).
  - lia.
  - reflexivity.
Defined.

(** [LoadOrStore] reports "newly marked" only for a key that was absent,
    and from then on reports it as already present. *)
Lemma LoadOrStore_twice m key value value' :
  (SyncMap.LoadOrStore (SyncMap.LoadOrStore m key value).1.1 key value').2
    = true.
Proof.
  unfold SyncMap.LoadOrStore.
  destruct (m !! key) as [actual|] eqn:Hm; simpl.
  - by rewrite Hm.
  - by rewrite lookup_insert_eq.
Qed.

(** C3: the check-and-mark on the ledger reports "newly marked" at most
    once per identity over a whole run, and so no identity is enqueued
    twice, however often and in whichever cycles it is listed. *)
Theorem newly_marked_at_most_once lib cap tr s :
  reaches lib cap init tr s →
  NoDup (news tr) ∧ NoDup (ID <$> enqs tr) ∧
  (∀ id, id ∈ news tr → is_Some (processedCalls s !! id)) ∧
  (∀ m key value value',
     (SyncMap.LoadOrStore (SyncMap.LoadOrStore m key value).1.1 key value').2
       = true).
Proof.
  intros Hr. split_and!.
  - by apply ledger_inv_reaches in Hr as (_ & _ & ? & _).
  - by eapply enqs_NoDup.
  - by apply ledger_inv_reaches in Hr as (_ & _ & _ & ? & _).
  - apply LoadOrStore_twice.
Qed.

Lemma newly_marked_at_most_once_witness :
  NoDup (news sampleRun.2) ∧ NoDup (ID <$> enqs sampleRun.2) ∧
  (∀ id, id ∈ news sampleRun.2 → is_Some (processedCalls sampleRun.1 !! id)) ∧
  (∀ m key value value',
     (SyncMap.LoadOrStore (SyncMap.LoadOrStore m key value).1.1 key value').2
       = true).
Proof.
  apply (newly_marked_at_most_once sampleDecoders MaxQueueSize
           sampleRun.2 sampleRun.1).
  apply run_reaches with sampleSchedule. vm_compute. reflexivity.
Defined.

(** C4: the calls that were enqueued and never dropped are, in the order
    the fetcher enqueued them, exactly the calls the player has dequeued,
    in the order it dequeued them, followed by the calls still queued; so
    the player's order is the fetcher's order on the calls never dropped. *)
Theorem dequeue_order_is_enqueue_order lib cap tr s :
  reaches lib cap init tr s →
  filter (λ c, c ∉ evicts tr) (enqs tr) = deqs tr ++ queue s ∧
  deqs tr `prefix_of` filter (λ c, c ∉ evicts tr) (enqs tr) ∧
  deqs tr `sublist_of` enqs tr.
Proof.
  intros [_ HF]%fifo_inv_reaches. split_and!; [done| |].
  - rewrite HF. by apply prefix_app_r.
  - transitivity (filter (λ c, c ∉ evicts tr) (enqs tr)).
    + rewrite HF. by apply sublist_inserts_r.
    + apply sublist_filter.
Qed.

Lemma dequeue_order_is_enqueue_order_witness :
  filter (λ c, c ∉ evicts sampleRun.2) (enqs sampleRun.2) =
    deqs sampleRun.2 ++ queue sampleRun.1 ∧
  deqs sampleRun.2 `prefix_of`
    filter (λ c, c ∉ evicts sampleRun.2) (enqs sampleRun.2) ∧
  deqs sampleRun.2 `sublist_of` enqs sampleRun.2.
Proof.
  apply (dequeue_order_is_enqueue_order sampleDecoders MaxQueueSize).
  apply run_reaches with sampleSchedule. vm_compute. reflexivity.
Defined.

(** ** Priming *)

Section Priming.
Context (lib : Decoders) (cap : nat).

(** No call listed by the priming cycle is ever enqueued. *)
Lemma primed_never_enqueued tr s L c c' :
  reaches lib cap init tr s →
  (true, L) ∈ listings tr → c ∈ L → c' ∈ enqs tr → ID c' ≠ ID c.
Proof.
  intros Hr HL Hc Hc' Heq.
  pose proof (ledger_inv_reaches _ _ _ _ Hr) as (HA & HB & _ & _ & _ & HF).
  assert (Hnews : ID c' ∈ news tr).
  { rewrite HB, fmap_app. apply elem_of_app. left.
    by apply list_elem_of_fmap_2. }
  destruct (priming_listing_inv _ _ _ _ Hr L c HL Hc) as [Hp|[Hfr _]].
  - apply (HF _ Hp). by rewrite <- Heq.
  - destruct (HA Hfr) as [Hnil _]. rewrite Hnil in Hnews.
    by apply elem_of_nil in Hnews.
Qed.

(** While the fetcher is priming nothing has been enqueued. *)
Lemma priming_enqueues_nothing tr s :
  reaches lib cap init tr s → isFirstRun s = true →
  enqs tr = [] ∧ queue s = [].
Proof.
  intros Hr Hfr.
  pose proof (ledger_inv_reaches _ _ _ _ Hr) as (HA & HB & _).
  pose proof (fifo_inv_reaches _ _ _ _ Hr) as [_ HF].
  destruct (HA Hfr) as [Hnil Hpend]. rewrite Hnil, Hpend, app_nil_r in HB.
  symmetry in HB. apply fmap_nil_inv in HB. rewrite HB in HF. simpl in HF.
  split; [done|]. symmetry in HF. by apply app_eq_nil in HF as [_ ?].
Qed.

(** Once priming is over, every call of the priming listing is in the
    ledger. *)
Lemma primed_all_marked tr s L c :
  reaches lib cap init tr s →
  (true, L) ∈ listings tr → isFirstRun s = false → c ∈ L →
  is_Some (processedCalls s !! ID c).
Proof.
  intros Hr HL Hfr Hc.
  pose proof (ledger_inv_reaches _ _ _ _ Hr) as (_ & _ & _ & _ & HE & _).
  destruct (priming_listing_inv _ _ _ _ Hr L c HL Hc) as [Hp|[Hfr' _]].
  - by apply HE.
  - congruence.
Qed.

(** The scenario, on the schedule in which the fetcher runs alone. *)
Lemma priming_scenario_run X Y Z r1 r2 :
  (0 < cap)%nat → ID Z ≠ ID X → ID Z ≠ ID Y →
  fetchListing lib r1 = Ok [X; Y] →
  fetchListing lib r2 = Ok [X; Y; Z] →
  ∃ s tr,
    run lib cap init
      [ATimer; AFetcherTick r1; AFetcherStep; AFetcherStep; AFetcherStep;
       ATimer; AFetcherTick r2;
       AFetcherStep; AFetcherStep; AFetcherStep; AFetcherStep]
    = Some (s, tr) ∧
    listings tr = [(true, [X; Y]); (false, [X; Y; Z])] ∧
    enqs tr = [Z] ∧ queue s = [Z] ∧ fetcher s = FWait false.
Proof.
  intros Hcap HZX HZY H1 H2. eexists _, _. split.
  - eapply run_cons; [by apply step_timer|].
    eapply run_cons; [by apply step_tick_ok|].
    eapply run_cons; [rewrite step_fetcher by done; by apply fetchCalls_range_prime|].
    eapply run_cons; [rewrite step_fetcher by done; by apply fetchCalls_range_prime|].
    eapply run_cons; [rewrite step_fetcher by done; by apply fetchCalls_range_end|].
    eapply run_cons; [by apply step_timer|].
    eapply run_cons; [by apply step_tick_ok|].
    eapply run_cons.
    { rewrite step_fetcher by done. apply fetchCalls_range_seen; [done|done|].
      simpl. rewrite !lookup_insert_is_Some'. by right; left. }
    eapply run_cons.
    { rewrite step_fetcher by done. apply fetchCalls_range_seen; [done|done|].
      simpl. rewrite !lookup_insert_is_Some'. by left. }
    eapply run_cons.
    { rewrite step_fetcher by done.
      apply fetchCalls_range_new_room; [done|done| |done].
      simpl. rewrite !lookup_insert_ne by done. apply lookup_empty. }
    eapply run_cons; [rewrite step_fetcher by done; by apply fetchCalls_range_end|].
    reflexivity.
  - split_and!; reflexivity.
Qed.

(** The scenario under every interleaving: nothing but [Z] can have been
    enqueued once the two listings are in. *)
Lemma priming_scenario_any X Y Z tr s :
  reaches lib cap init tr s →
  listings tr = [(true, [X; Y]); (false, [X; Y; Z])] →
  ∀ c, c ∈ enqs tr → c = Z.
Proof.
  intros Hr HL c Hc.
  destruct (proj1 (steady_listing_inv _ _ _ _ Hr) c Hc) as (L & HinL & HcL).
  rewrite HL in HinL.
  apply elem_of_cons in HinL as [[=]|HinL].
  apply list_elem_of_singleton in HinL as [= ->].
  assert (Hp : ∀ c0, c0 ∈ [X; Y] → c ≠ c0).
  { intros c0 Hc0 ->.
    eapply (primed_never_enqueued tr s [X; Y] c0 c0); try done.
    rewrite HL. left. }
  apply elem_of_cons in HcL as [->|HcL]; [exfalso; eapply Hp; [|done]; left|].
  apply elem_of_cons in HcL as [->|HcL];
    [exfalso; eapply Hp; [|done]; right; left|].
  by apply list_elem_of_singleton in HcL.
Qed.

End Priming.

(** C1: a call listed by the priming cycle is never enqueued, in any run
    and under any interleaving; while priming, each call of the listing is
    marked in the ledger and nothing is put on the queue; and when priming
    lists [X; Y] and the next cycle lists [X; Y; Z], only [Z] is enqueued. *)
Theorem priming_calls_never_enqueued :
  (∀ lib cap tr s L c c',
     reaches lib cap init tr s →
     (true, L) ∈ listings tr → c ∈ L → c' ∈ enqs tr → ID c' ≠ ID c) ∧
  (∀ lib cap s call rest,
     process s = Alive → isFirstRun s = true →
     fetcher s = FRange (call :: rest) →
     ∃ s', step lib cap s AFetcherStep = Some (s', [EvPrimed (ID call)]) ∧
           processedCalls s' !! ID call = Some true ∧
           queue s' = queue s ∧ fetcher s' = FRange rest) ∧
  (∀ lib cap tr s,
     reaches lib cap init tr s → isFirstRun s = true →
     enqs tr = [] ∧ queue s = []) ∧
  (∀ lib cap tr s L c,
     reaches lib cap init tr s →
     (true, L) ∈ listings tr → isFirstRun s = false → c ∈ L →
     is_Some (processedCalls s !! ID c)) ∧
  (∀ lib cap X Y Z r1 r2,
     (0 < cap)%nat → ID Z ≠ ID X → ID Z ≠ ID Y →
     fetchListing lib r1 = Ok [X; Y] →
     fetchListing lib r2 = Ok [X; Y; Z] →
     ∃ s tr,
       run lib cap init
         [ATimer; AFetcherTick r1; AFetcherStep; AFetcherStep; AFetcherStep;
          ATimer; AFetcherTick r2;
          AFetcherStep; AFetcherStep; AFetcherStep; AFetcherStep]
       = Some (s, tr) ∧
       listings tr = [(true, [X; Y]); (false, [X; Y; Z])] ∧
       enqs tr = [Z] ∧ queue s = [Z] ∧ fetcher s = FWait false) ∧
  (∀ lib cap X Y Z tr s,
     reaches lib cap init tr s →
     listings tr = [(true, [X; Y]); (false, [X; Y; Z])] →
     ∀ c, c ∈ enqs tr → c = Z).
Proof.
  split_and!.
  - apply primed_never_enqueued.
  - intros lib cap s call rest Hp Hf Hr. eexists. split_and!.
    + unfold_step. rewrite Hp. by apply fetchCalls_range_prime.
    + simpl. apply lookup_insert_eq.
    + done.
    + done.
  - apply priming_enqueues_nothing.
  - apply primed_all_marked.
  - apply priming_scenario_run.
  - apply priming_scenario_any.
Qed.

Lemma priming_calls_never_enqueued_witness :
  ID callB ≠ ID callA ∧
  (∃ s tr,
     run sampleDecoders MaxQueueSize init
       [ATimer; AFetcherTick (replyOf "XY");
        AFetcherStep; AFetcherStep; AFetcherStep;
        ATimer; AFetcherTick (replyOf "XYZ");
        AFetcherStep; AFetcherStep; AFetcherStep; AFetcherStep]
     = Some (s, tr) ∧
     listings tr = [(true, [callX; callY]); (false, [callX; callY; callZ])] ∧
     enqs tr = [callZ] ∧ queue s = [callZ] ∧ fetcher s = FWait false).
Proof.
  destruct priming_calls_never_enqueued as (H1 & _ & _ & _ & H5 & _). split.
  - apply (H1 sampleDecoders MaxQueueSize sampleRun.2 sampleRun.1
             [callA] callA callB).
    + apply run_reaches with sampleSchedule. vm_compute. reflexivity.
    + vm_compute. constructor.
    + constructor.
    + vm_compute. constructor.
  - apply (H5 sampleDecoders MaxQueueSize callX callY callZ).
    + unfold MaxQueueSize. lia.
    + discriminate.
    + discriminate.
    + vm_compute. reflexivity.
    + vm_compute. reflexivity.
Defined.

(** ** Leaving priming mode *)

Section Mode.
Context (lib : Decoders) (cap : nat).

(** As long as no listing has been obtained the fetcher is priming and
    nothing has been marked or queued. *)
Lemma no_listing_still_priming tr s :
  reaches lib cap init tr s → listings tr = [] →
  isFirstRun s = true ∧ processedCalls s = ∅ ∧ queue s = [].
Proof.
  intros Hm%mode_inv_reaches Hl. unfold mode_inv in Hm. rewrite Hl in Hm.
  by destruct Hm as (? & _ & ? & ?).
Qed.

(** The first listing obtained is the priming one, all later ones are
    steady, and the fetcher has left priming only if there is one. *)
Lemma first_listing_is_priming tr s p L rest :
  reaches lib cap init tr s → listings tr = (p, L) :: rest →
  p = true ∧ Forall (λ x, x.1 = false) rest.
Proof.
  intros Hm%mode_inv_reaches Hl. unfold mode_inv in Hm. rewrite Hl in Hm.
  by destruct Hm as (? & ? & _).
Qed.

Lemma steady_needs_listing tr s :
  reaches lib cap init tr s → isFirstRun s = false →
  ∃ L rest, listings tr = (true, L) :: rest.
Proof.
  intros Hm%mode_inv_reaches Hf. unfold mode_inv in Hm.
  destruct (listings tr) as [|[p L] rest].
  - destruct Hm as (? & _). congruence.
  - destruct Hm as (-> & _). by exists L, rest.
Qed.

(** Every mark in the ledger is the value [true]. *)
Lemma marks_are_true tr s k v :
  reaches lib cap init tr s → processedCalls s !! k = Some v → v = true.
Proof.
  intros Hr. revert k v.
  induction Hr as [|tr s1 a s2 evs Hr IH Hstep]; intros k v.
  { simpl. by rewrite lookup_empty. }
  destruct s1 as [pr dn q pc fr f p m]; simpl in *.
  step_inv Hstep; try apply IH.
  all: rewrite lookup_insert; case_decide; [by intros [= <-]|apply IH].
Qed.

(** Every call of the first listing is marked in the ledger once the range
    loop has passed it. *)
Lemma first_listing_marked tr s p L rest c :
  reaches lib cap init tr s → listings tr = (p, L) :: rest → c ∈ L →
  processedCalls s !! ID c = Some true ∨
  (isFirstRun s = true ∧ c ∈ rangeRest s).
Proof.
  intros Hr Hl Hc.
  destruct (first_listing_is_priming _ _ _ _ _ Hr Hl) as [-> _].
  pose proof (ledger_inv_reaches _ _ _ _ Hr) as (_ & _ & _ & _ & HE & _).
  destruct (priming_listing_inv _ _ _ _ Hr L c) as [Hp|?];
    [rewrite Hl; left|done| |by right].
  left. destruct (HE _ Hp) as [v Hv].
  by rewrite Hv, (marks_are_true _ _ _ _ Hr Hv).
Qed.

(** The range loop of the priming cycle, the fetcher running alone: one
    [Store] per call, nothing sent, and priming is over at the end. *)
Lemma priming_range_run L s :
  process s = Alive → isFirstRun s = true → fetcher s = FRange L →
  ∃ s',
    run lib cap s (replicate (S (length L)) AFetcherStep)
      = Some (s', EvPrimed ∘ ID <$> L) ∧
    process s' = Alive ∧ isFirstRun s' = false ∧ fetcher s' = FWait false ∧
    queue s' = queue s ∧
    ∀ k, processedCalls s' !! k =
           if decide (k ∈ ID <$> L) then Some true else processedCalls s !! k.
Proof.
  revert s. induction L as [|c L IH]; intros s Hp Hfr Hf.
  - eexists. split_and!.
    + eapply (run_cons _ _ _ _ _ _ [] _ []); [|reflexivity].
      rewrite step_fetcher by done. by apply fetchCalls_range_end.
    + done.
    + done.
    + done.
    + done.
    + intros k. case_decide as Hin; [by apply elem_of_nil in Hin|done].
  - destruct (IH (with_fetcher
                    (with_processedCalls s (<[ID c := true]> (processedCalls s)))
                    (FRange L))) as (s' & Hrun & ? & ? & ? & Hq & Hm);
      [done|done|done|].
    exists s'. split_and!; try done.
    + change (replicate (S (length (c :: L))) AFetcherStep)
        with (AFetcherStep :: replicate (S (length L)) AFetcherStep).
      eapply (run_cons _ _ _ _ _ _ [EvPrimed (ID c)]); [|exact Hrun].
      rewrite step_fetcher by done. by apply fetchCalls_range_prime.
    + intros k. rewrite Hm, fmap_cons.
      cbn [processedCalls with_fetcher with_processedCalls].
      destruct (decide (k ∈ ID <$> L)) as [Hin|Hin].
      * rewrite decide_True; [done|by right].
      * rewrite lookup_insert. case_decide as Hk.
        -- subst k. rewrite decide_True; [done|by left].
        -- rewrite decide_False; [done|].
           intros [->|?]%elem_of_cons; done.
Qed.

(** The first cycle that obtains a listing, whenever it comes: the listing
    is handled in priming mode, each of its calls is marked, none is
    enqueued. *)
Lemma first_success_primes tr s r L :
  reaches lib cap init tr s → listings tr = [] →
  process s = Alive → fetcher s = FWait true →
  fetchListing lib r = Ok L →
  ∃ s',
    run lib cap s (AFetcherTick r :: replicate (S (length L)) AFetcherStep)
      = Some (s', EvListing true L :: (EvPrimed ∘ ID <$> L)) ∧
    isFirstRun s' = false ∧ fetcher s' = FWait false ∧ queue s' = [] ∧
    ∀ k, processedCalls s' !! k =
           if decide (k ∈ ID <$> L) then Some true else None.
Proof.
  intros Hr Hl Hp Hf Hok.
  destruct (no_listing_still_priming _ _ Hr Hl) as (Hfr & Hpc & Hq).
  destruct (priming_range_run L (with_fetcher s (FRange L)))
    as (s' & Hrun & _ & ? & ? & Hq' & Hm); [done|done|done|].
  exists s'. split_and!; try done.
  - eapply (run_cons _ _ _ _ _ _ [EvListing true L]); [|exact Hrun].
    rewrite <- Hfr. by apply step_tick_ok.
  - by rewrite Hq'.
  - intros k. rewrite Hm.
    cbn [processedCalls with_fetcher]. by rewrite Hpc, lookup_empty.
Qed.

End Mode.

(** C10: the fetcher leaves priming mode only after a cycle that obtained
    a listing.  While every attempt has failed it is still priming, with
    an empty ledger and an empty queue; the first listing ever obtained is
    therefore handled in priming mode (every later one in steady state):
    each of its calls is marked in the ledger as the range loop passes it,
    all of them are marked once priming is over, and none of them is ever
    enqueued; and whenever that first successful cycle comes, the fetcher
    running through it stores every call of the listing, sends nothing,
    and only then leaves priming mode. *)
Theorem priming_ends_only_after_success lib cap tr s :
  reaches lib cap init tr s →
  (listings tr = [] →
   isFirstRun s = true ∧ processedCalls s = ∅ ∧ queue s = []) ∧
  (isFirstRun s = false → ∃ L rest, listings tr = (true, L) :: rest) ∧
  (∀ p L rest,
     listings tr = (p, L) :: rest →
     p = true ∧ Forall (λ x, x.1 = false) rest ∧
     (∀ c c', c ∈ L → c' ∈ enqs tr → ID c' ≠ ID c) ∧
     (∀ c, c ∈ L →
        processedCalls s !! ID c = Some true ∨
        (isFirstRun s = true ∧ c ∈ rangeRest s)) ∧
     (isFirstRun s = false →
      ∀ c, c ∈ L → processedCalls s !! ID c = Some true)) ∧
  (∀ r L,
     listings tr = [] → process s = Alive → fetcher s = FWait true →
     fetchListing lib r = Ok L →
     ∃ s',
       run lib cap s (AFetcherTick r :: replicate (S (length L)) AFetcherStep)
         = Some (s', EvListing true L :: (EvPrimed ∘ ID <$> L)) ∧
       isFirstRun s' = false ∧ fetcher s' = FWait false ∧ queue s' = [] ∧
       ∀ k, processedCalls s' !! k =
              if decide (k ∈ ID <$> L) then Some true else None).
Proof.
  intros Hr. split_and!.
  - by apply (no_listing_still_priming lib cap).
  - by apply (steady_needs_listing lib cap).
  - intros p L rest Hl.
    destruct (first_listing_is_priming _ _ _ _ _ _ _ Hr Hl) as [-> HF].
    split_and!; [done|done| | |].
    + intros c c' Hc Hc'. eapply primed_never_enqueued; try done.
      rewrite Hl. left.
    + intros c Hc. by eapply first_listing_marked.
    + intros Hfr c Hc.
      destruct (first_listing_marked _ _ _ _ _ _ _ _ Hr Hl Hc) as [?|[? _]];
        [done|congruence].
  - intros r L Hl Hp Hf Hok. by eapply first_success_primes.
Qed.

Lemma priming_ends_only_after_success_witness :
  (isFirstRun failingRun.1 = true ∧ processedCalls failingRun.1 = ∅ ∧
   queue failingRun.1 = []) ∧
  (listings lateSteadyRun.2 = [(true, [callA]); (false, [callA; callB])] ∧
   enqs lateSteadyRun.2 = [callB] ∧
   ID callB ≠ ID callA ∧
   processedCalls lateSteadyRun.1 !! ID callA = Some true) ∧
  (∃ s',
     run sampleDecoders MaxQueueSize retryRun.1
       [AFetcherTick (replyOf "XY"); AFetcherStep; AFetcherStep; AFetcherStep]
       = Some (s', [EvListing true [callX; callY];
                    EvPrimed (ID callX); EvPrimed (ID callY)]) ∧
     isFirstRun s' = false ∧ fetcher s' = FWait false ∧ queue s' = [] ∧
     ∀ k, processedCalls s' !! k =
            if decide (k ∈ ID <$> [callX; callY]) then Some true else None).
Proof.
  split; [|split].
  - apply (priming_ends_only_after_success sampleDecoders MaxQueueSize
             failingRun.2 failingRun.1).
    + apply run_reaches with failingSchedule. vm_compute. reflexivity.
    + vm_compute. reflexivity.
  - assert (Hr : reaches sampleDecoders MaxQueueSize init
                   lateSteadyRun.2 lateSteadyRun.1).
    { apply run_reaches with lateSteadySchedule. vm_compute. reflexivity. }
    destruct (proj1 (proj2 (proj2 (priming_ends_only_after_success
                           sampleDecoders MaxQueueSize
                           lateSteadyRun.2 lateSteadyRun.1 Hr)))
             true [callA] [(false, [callA; callB])])
      as (_ & _ & Hne & _ & Hm).
    { vm_compute. reflexivity. }
    split; [|split; [|split]].
    + vm_compute. reflexivity.
    + vm_compute. reflexivity.
    + apply (Hne callA callB).
      * constructor.
      * vm_compute. constructor.
    + apply Hm.
      * vm_compute. reflexivity.
      * constructor.
  - assert (Hr : reaches sampleDecoders MaxQueueSize init
                   retryRun.2 retryRun.1).
    { apply run_reaches with (failingSchedule ++ [ATimer]).
      vm_compute. reflexivity. }
    apply (proj2 (proj2 (proj2 (priming_ends_only_after_success
                           sampleDecoders MaxQueueSize
                           retryRun.2 retryRun.1 Hr)))
             (replyOf "XY") [callX; callY]).
    + vm_compute. reflexivity.
    + vm_compute. reflexivity.
    + vm_compute. reflexivity.
    + vm_compute. reflexivity.
Defined.

(** ** A failed cycle *)

Section FailedCycle.
Context (lib : Decoders) (cap : nat).

(** The failures of one cycle, as the program meets them. *)
Lemma network_error_fails :
  fetchListing lib DoFails = Err (ErrFetching ErrDo).
Proof. reflexivity. Qed.

Lemma bad_status_fails code body :
  code ≠ StatusOK →
  fetchListing lib (Reply code body) = Err (ErrFetching (ErrStatus code)).
Proof.
  intros H. unfold fetchListing, fetchJSON. by rewrite bool_decide_true.
Qed.

Lemma missing_markers_fail html :
  strings_Index html "<pre>" = (-1)%Z ∨ strings_Index html "</pre>" = (-1)%Z →
  fetchListing lib (Reply StatusOK (Some html)) = Err (ErrFetching ErrNoPre).
Proof.
  intros H. unfold fetchListing, fetchJSON.
  rewrite bool_decide_false by (intros Hne; by apply Hne).
  by rewrite bool_decide_true.
Qed.

Lemma unescape_failure_fails html jsonStr :
  strings_Index html "<pre>" ≠ (-1)%Z → strings_Index html "</pre>" ≠ (-1)%Z →
  slice html (strings_Index html "<pre>" + 5) (strings_Index html "</pre>")
    = Some jsonStr →
  Unquote lib (dquote +:+ jsonStr +:+ dquote) = None →
  fetchListing lib (Reply StatusOK (Some html)) = Err (ErrFetching ErrUnquote).
Proof.
  intros H1 H2 Hs Hu. unfold fetchListing, fetchJSON.
  rewrite bool_decide_false by (intros Hne; by apply Hne).
  rewrite bool_decide_false by (intros [?|?]; done).
  change (Z.of_nat (String.length "<pre>")) with 5%Z. by rewrite Hs, Hu.
Qed.

Lemma parse_failure_fails r body :
  fetchJSON lib r = Ok body → UnmarshalCalls lib body = None →
  fetchListing lib r = Err ErrParsing.
Proof. intros H1 H2. unfold fetchListing. by rewrite H1, H2. Qed.

(** A cycle whose listing fails changes nothing but the fetcher's
    position: it is back at its select with a fresh timer. *)
Lemma failed_cycle_step s r e :
  process s = Alive → fetcher s = FWait true →
  fetchListing lib r = Err e →
  step lib cap s (AFetcherTick r) =
    Some (with_fetcher s (FWait false), [EvFetchFailed e]) ∧
  (∀ r', step lib cap (with_fetcher s (FWait false)) (AFetcherTick r') = None) ∧
  step lib cap (with_fetcher s (FWait false)) ATimer =
    Some (with_fetcher s (FWait true), []) ∧
  (∀ r', is_Some (step lib cap (with_fetcher s (FWait true)) (AFetcherTick r'))).
Proof.
  intros Hp Hf He. split_and!.
  - by apply step_tick_err.
  - intros r'. unfold_step. simpl. by rewrite Hp.
  - unfold_step. simpl. rewrite Hp. by destruct s.
  - intros r'. unfold_step. simpl. rewrite Hp.
    destruct (fetchListing lib r'); eauto.
Qed.

(** Both markers found, the closing one first: the check of [fetchJSON]
    passes and the slice expression panics. *)
Lemma fetchJSON_reversed_panics html :
  strings_Index html "<pre>" ≠ (-1)%Z → strings_Index html "</pre>" ≠ (-1)%Z →
  (strings_Index html "</pre>" < strings_Index html "<pre>")%Z →
  fetchJSON lib (Reply StatusOK (Some html)) = Panic.
Proof.
  intros Ha Hb Hlt. unfold fetchJSON.
  rewrite bool_decide_false by (intros Hx; by apply Hx).
  rewrite bool_decide_false by (intros [?|?]; done).
  unfold slice. rewrite bool_decide_false; [done|].
  change (Z.of_nat (String.length "<pre>")) with 5%Z. lia.
Qed.

(** Once the process is gone nothing moves. *)
Lemma exited_is_final s status tr s' :
  process s = Exited status → reaches lib cap s tr s' → s' = s ∧ tr = [].
Proof.
  intros Hp. induction 1 as [|tr s1 a s2 evs Hr [-> ->] Hstep]; [done|].
  unfold step in Hstep. by rewrite Hp in Hstep.
Qed.

End FailedCycle.

(** Every failure that [fetchJSON] or [json.Unmarshal] returns as an error
    (network error, non-OK status, missing <pre> markers, unescape
    failure, JSON parse failure) abandons the cycle: nothing is enqueued,
    the ledger, the queue and the mode are unchanged, the process keeps
    running, and the fetcher is back at its select, where the next cycle
    cannot start before the interval has elapsed and can start once it
    has. *)
Lemma returned_error_abandons_cycle lib cap :
  (fetchListing lib DoFails = Err (ErrFetching ErrDo)) ∧
  (∀ code body,
     code ≠ StatusOK →
     fetchListing lib (Reply code body) = Err (ErrFetching (ErrStatus code))) ∧
  (∀ html,
     strings_Index html "<pre>" = (-1)%Z ∨ strings_Index html "</pre>" = (-1)%Z →
     fetchListing lib (Reply StatusOK (Some html)) = Err (ErrFetching ErrNoPre)) ∧
  (∀ html jsonStr,
     strings_Index html "<pre>" ≠ (-1)%Z → strings_Index html "</pre>" ≠ (-1)%Z →
     slice html (strings_Index html "<pre>" + 5) (strings_Index html "</pre>")
       = Some jsonStr →
     Unquote lib (dquote +:+ jsonStr +:+ dquote) = None →
     fetchListing lib (Reply StatusOK (Some html)) = Err (ErrFetching ErrUnquote)) ∧
  (∀ r body,
     fetchJSON lib r = Ok body → UnmarshalCalls lib body = None →
     fetchListing lib r = Err ErrParsing) ∧
  (∀ s r e,
     process s = Alive → fetcher s = FWait true →
     fetchListing lib r = Err e →
     ∃ s',
       step lib cap s (AFetcherTick r) = Some (s', [EvFetchFailed e]) ∧
       enqs [EvFetchFailed e] = [] ∧
       queue s' = queue s ∧
       processedCalls s' = processedCalls s ∧
       isFirstRun s' = isFirstRun s ∧
       player s' = player s ∧
       process s' = Alive ∧
       fetcher s' = FWait false ∧
       (∀ r', step lib cap s' (AFetcherTick r') = None) ∧
       ∃ s'',
         step lib cap s' ATimer = Some (s'', []) ∧
         ∀ r', is_Some (step lib cap s'' (AFetcherTick r'))).
Proof.
  split_and!.
  - apply network_error_fails.
  - apply bad_status_fails.
  - apply missing_markers_fail.
  - apply unescape_failure_fails.
  - apply parse_failure_fails.
  - intros s r e Hp Hf He.
    destruct (failed_cycle_step lib cap s r e Hp Hf He) as (H1 & H2 & H3 & H4).
    exists (with_fetcher s (FWait false)). split_and!; try done.
    exists (with_fetcher s (FWait true)). by split.
Qed.

Lemma returned_error_abandons_cycle_example :
  fetchListing sampleDecoders (Reply 503 None)
    = Err (ErrFetching (ErrStatus 503)) ∧
  fetchListing sampleDecoders (Reply StatusOK (Some "<html>busy</html>"))
    = Err (ErrFetching ErrNoPre) ∧
  fetchListing sampleDecoders (Reply StatusOK (Some "<pre>\</pre>"))
    = Err (ErrFetching ErrUnquote) ∧
  fetchListing sampleDecoders (replyOf "!") = Err ErrParsing ∧
  (∃ s',
     step sampleDecoders MaxQueueSize (with_fetcher init (FWait true))
       (AFetcherTick DoFails)
       = Some (s', [EvFetchFailed (ErrFetching ErrDo)]) ∧
     enqs [EvFetchFailed (ErrFetching ErrDo)] = [] ∧
     queue s' = [] ∧
     processedCalls s' = ∅ ∧
     isFirstRun s' = true ∧
     player s' = PWait ∧
     process s' = Alive ∧
     fetcher s' = FWait false ∧
     (∀ r', step sampleDecoders MaxQueueSize s' (AFetcherTick r') = None) ∧
     ∃ s'',
       step sampleDecoders MaxQueueSize s' ATimer = Some (s'', []) ∧
       ∀ r', is_Some (step sampleDecoders MaxQueueSize s'' (AFetcherTick r'))).
Proof.
  destruct (returned_error_abandons_cycle sampleDecoders MaxQueueSize)
    as (_ & H2 & H3 & H4 & H5 & H6).
  split_and!.
  - apply H2. discriminate.
  - apply H3. left. vm_compute. reflexivity.
  - apply (H4 _ "\").
    + vm_compute. discriminate.
    + vm_compute. discriminate.
    + vm_compute. reflexivity.
    + vm_compute. reflexivity.
  - apply (H5 _ "!").
    + vm_compute. reflexivity.
    + vm_compute. reflexivity.
  - apply (H6 (with_fetcher init (FWait true)) DoFails (ErrFetching ErrDo)).
    + reflexivity.
    + reflexivity.
    + reflexivity.
Defined.

(** C6, at the failing input: a cycle whose response has both markers
    with the closing one before the opening one is a cycle in which
    retrieving the listing fails, yet it is not abandoned.  The marker
    check of [fetchJSON] passes, no error is returned and no listing
    either; the slice expression panics, the process is gone with status
    2, and no later cycle ever runs: the timer does not fire again and no
    fetch is made. *)
Theorem reversed_envelope_cycle_ends_the_process lib cap s html :
  process s = Alive → fetcher s = FWait true →
  strings_Index html "<pre>" ≠ (-1)%Z → strings_Index html "</pre>" ≠ (-1)%Z →
  (strings_Index html "</pre>" < strings_Index html "<pre>")%Z →
  (∀ e, fetchListing lib (Reply StatusOK (Some html)) ≠ Err e) ∧
  (∀ L, fetchListing lib (Reply StatusOK (Some html)) ≠ Ok L) ∧
  ∃ s',
    step lib cap s (AFetcherTick (Reply StatusOK (Some html)))
      = Some (s', [EvCrash]) ∧
    process s' = Exited 2 ∧
    queue s' = queue s ∧ processedCalls s' = processedCalls s ∧
    step lib cap s' ATimer = None ∧
    (∀ r, step lib cap s' (AFetcherTick r) = None) ∧
    (∀ tr s'', reaches lib cap s' tr s'' → s'' = s' ∧ tr = []).
Proof.
  intros Hp Hf Ha Hb Hlt.
  assert (HP : fetchListing lib (Reply StatusOK (Some html)) = Panic).
  { unfold fetchListing. by rewrite (fetchJSON_reversed_panics lib html). }
  split_and!.
  - intros e. by rewrite HP.
  - intros L. by rewrite HP.
  - exists (with_process s (Exited 2)). split_and!; try done.
    + by apply step_tick_panic.
    + intros tr s''. by apply exited_is_final with 2%Z.
Qed.

Lemma reversed_envelope_cycle_ends_the_process_witness :
  (∀ e, fetchListing sampleDecoders (Reply StatusOK (Some "</pre><pre>"))
          ≠ Err e) ∧
  (∀ L, fetchListing sampleDecoders (Reply StatusOK (Some "</pre><pre>"))
          ≠ Ok L) ∧
  ∃ s',
    step sampleDecoders MaxQueueSize retryRun.1
      (AFetcherTick (Reply StatusOK (Some "</pre><pre>")))
      = Some (s', [EvCrash]) ∧
    process s' = Exited 2 ∧
    queue s' = queue retryRun.1 ∧
    processedCalls s' = processedCalls retryRun.1 ∧
    step sampleDecoders MaxQueueSize s' ATimer = None ∧
    (∀ r, step sampleDecoders MaxQueueSize s' (AFetcherTick r) = None) ∧
    (∀ tr s'', reaches sampleDecoders MaxQueueSize s' tr s'' →
               s'' = s' ∧ tr = []).
Proof.
  apply (reversed_envelope_cycle_ends_the_process sampleDecoders MaxQueueSize
           retryRun.1 "</pre><pre>").
  - vm_compute. reflexivity.
  - vm_compute. reflexivity.
  - vm_compute. discriminate.
  - vm_compute. discriminate.
  - vm_compute. reflexivity.
Defined.

(** ** Shutdown *)

Section Shutdown.
Context (lib : Decoders) (cap : nat).

(** [done] is closed once and stays closed. *)
Lemma done_stays_set s a s' evs :
  step lib cap s a = Some (s', evs) → done s = true → done s' = true.
Proof.
  intros Hstep Hd. destruct s as [pr dn q pc fr f p m]; simpl in *.
  step_inv Hstep; done.
Qed.

(** A player waiting after the signal can leave, and leaves if the queue
    is empty. *)
Lemma player_exit_enabled s :
  process s = Alive → done s = true → player s = PWait →
  step lib cap s APlayerDone = Some (with_player s PStopped, [EvPlayerStopped]).
Proof. intros Hp Hd Hw. unfold_step. by rewrite Hp, Hw, Hd. Qed.

Lemma player_exits_on_empty_queue s a s' evs :
  done s = true → player s = PWait → queue s = [] →
  player_action a → step lib cap s a = Some (s', evs) →
  a = APlayerDone ∧ s' = with_player s PStopped ∧ deqs evs = [].
Proof.
  intros Hd Hw Hq Ha Hstep. destruct s as [pr dn q pc fr f p m]; simpl in *.
  subst. destruct a; try done; step_inv Hstep; done.
Qed.

(** A fetcher waiting after the signal can leave, and leaves if its timer
    has not fired. *)
Lemma fetcher_exit_enabled s b :
  process s = Alive → done s = true → fetcher s = FWait b →
  step lib cap s AFetcherDone =
    Some (with_fetcher s FStopped, [EvFetcherStopped]).
Proof. intros Hp Hd Hw. unfold_step. by rewrite Hp, Hw, Hd. Qed.

Lemma fetcher_exits_before_timer s a s' evs :
  done s = true → fetcher s = FWait false →
  fetcher_action a → step lib cap s a = Some (s', evs) →
  a = AFetcherDone ∧ s' = with_fetcher s FStopped ∧ listings evs = [].
Proof.
  intros Hd Hw Ha Hstep. destruct s as [pr dn q pc fr f p m]; simpl in *.
  subst. destruct a; try done; step_inv Hstep; done.
Qed.

(** A loop that has returned makes no further move. *)
Lemma stopped_player_is_stuck s a :
  player s = PStopped → player_action a → step lib cap s a = None.
Proof.
  intros Hs Ha. destruct s as [pr dn q pc fr f p m]; simpl in *. subst.
  unfold_step. simpl. destruct pr; [|done]. by destruct a.
Qed.

Lemma stopped_fetcher_is_stuck s a :
  fetcher s = FStopped → fetcher_action a → step lib cap s a = None.
Proof.
  intros Hs Ha. destruct s as [pr dn q pc fr f p m]; simpl in *. subst.
  unfold_step. simpl. destruct pr; [|done]. by destruct a.
Qed.

End Shutdown.

(** C7, as stated, fails: after the signal, with a call still queued, the
    player's select may take the queue case and start that call. *)
Lemma player_may_start_call_after_shutdown :
  ¬ stops_at_next_wait sampleDecoders MaxQueueSize.
Proof.
  intros H.
  destruct (H shutdownRun.2 shutdownRun.1 APlayerRecv
              (with_player (with_queue shutdownRun.1 []) (PPlaying callB))
              [EvDeq callB]) as [Hp _].
  - apply run_reaches with shutdownSchedule. vm_compute. reflexivity.
  - vm_compute. reflexivity.
  - vm_compute. reflexivity.
  - specialize (Hp eq_refl I). vm_compute in Hp. discriminate Hp.
Qed.

(** C7, amended: once the shutdown signal is set it stays set; a loop
    waiting in its select can then always leave through the shutdown
    case, and it does leave whenever that is the only ready case: the
    player when the queue is empty (so a player blocked on an empty queue
    exits without dequeuing anything), the fetcher when its interval
    timer has not fired; and a loop that has left never moves again. *)
Theorem shutdown_exit_when_only_ready lib cap s :
  process s = Alive → done s = true →
  (∀ a s' evs, step lib cap s a = Some (s', evs) → done s' = true) ∧
  (player s = PWait →
   step lib cap s APlayerDone =
     Some (with_player s PStopped, [EvPlayerStopped])) ∧
  (player s = PWait → queue s = [] →
   ∀ a s' evs,
     player_action a → step lib cap s a = Some (s', evs) →
     a = APlayerDone ∧ s' = with_player s PStopped ∧ deqs evs = []) ∧
  (∀ b, fetcher s = FWait b →
   step lib cap s AFetcherDone =
     Some (with_fetcher s FStopped, [EvFetcherStopped])) ∧
  (fetcher s = FWait false →
   ∀ a s' evs,
     fetcher_action a → step lib cap s a = Some (s', evs) →
     a = AFetcherDone ∧ s' = with_fetcher s FStopped ∧ listings evs = []) ∧
  (player s = PStopped → ∀ a, player_action a → step lib cap s a = None) ∧
  (fetcher s = FStopped → ∀ a, fetcher_action a → step lib cap s a = None).
Proof.
  intros Hp Hd. split_and!.
  - intros a s' evs Hstep. by eapply done_stays_set.
  - intros Hw. by apply player_exit_enabled.
  - intros Hw Hq a s' evs Ha Hstep. by eapply player_exits_on_empty_queue.
  - intros b Hw. by eapply fetcher_exit_enabled.
  - intros Hw a s' evs Ha Hstep. by eapply fetcher_exits_before_timer.
  - intros Hs a Ha. by apply stopped_player_is_stuck.
  - intros Hs a Ha. by apply stopped_fetcher_is_stuck.
Qed.

Lemma shutdown_exit_when_only_ready_witness :
  step sampleDecoders MaxQueueSize quietShutdown APlayerDone =
    Some (with_player quietShutdown PStopped, [EvPlayerStopped]) ∧
  (∀ a s' evs,
     player_action a →
     step sampleDecoders MaxQueueSize quietShutdown a = Some (s', evs) →
     a = APlayerDone ∧ s' = with_player quietShutdown PStopped ∧
     deqs evs = []) ∧
  step sampleDecoders MaxQueueSize quietShutdown AFetcherDone =
    Some (with_fetcher quietShutdown FStopped, [EvFetcherStopped]) ∧
  (∀ a s' evs,
     fetcher_action a →
     step sampleDecoders MaxQueueSize quietShutdown a = Some (s', evs) →
     a = AFetcherDone ∧ s' = with_fetcher quietShutdown FStopped ∧
     listings evs = []).
Proof.
  destruct (shutdown_exit_when_only_ready sampleDecoders MaxQueueSize
              quietShutdown) as (_ & H2 & H3 & H4 & H5 & _).
  - vm_compute. reflexivity.
  - vm_compute. reflexivity.
  - split_and!.
    + apply H2. vm_compute. reflexivity.
    + apply H3; vm_compute; reflexivity.
    + apply (H4 false). vm_compute. reflexivity.
    + apply H5. vm_compute. reflexivity.
Defined.

(** ** Start-up and errors inside the loops *)

Section Errors.
Context (lib : Decoders) (cap : nat).

(** Each fatal start-up condition ends [main] with a message and status 1
    before any goroutine exists. *)
Lemma proxy_down_is_fatal env :
  commandLine env = RunCommand → isFlareSolverrRunning (probe env) = false →
  main lib env = ExitedEarly MsgFlareSolverrNotRunning 1.
Proof. intros Hf Hp. unfold main. by rewrite Hf, Hp. Qed.

Lemma systems_error_is_fatal env e :
  commandLine env = RunCommand → isFlareSolverrRunning (probe env) = true →
  shortnameFlag env = EmptyString →
  fetchSystems lib (systemsReply env) (scanln env) = Err e →
  main lib env = ExitedEarly (MsgSystems e) 1.
Proof.
  intros Hf Hp Hs He. unfold main. rewrite Hf, Hp, Hs. simpl.
  by rewrite He.
Qed.

Lemma no_selection_is_an_error r body systemsResponse :
  fetchJSON lib r = Ok body →
  UnmarshalSystems lib body = Some systemsResponse →
  Success systemsResponse = true →
  fetchSystems lib r None = Err ErrUserInput.
Proof.
  intros H1 H2 H3. unfold fetchSystems. by rewrite H1, H2, H3.
Qed.

Lemma listing_systems_failure_is_an_error r input e :
  fetchJSON lib r = Err e →
  fetchSystems lib r input = Err (ErrFetchSystems e).
Proof. intros H. unfold fetchSystems. by rewrite H. Qed.

(** An error returned inside either loop leaves the process running and
    the loop back at its select. *)
Lemma fetch_error_keeps_running s r e :
  process s = Alive → fetcher s = FWait true → fetchListing lib r = Err e →
  ∃ s', step lib cap s (AFetcherTick r) = Some (s', [EvFetchFailed e]) ∧
        process s' = Alive ∧ fetcher s' = FWait false.
Proof.
  intros Hp Hf He. eexists. split; [by apply step_tick_err|]. by split.
Qed.

Lemma play_error_keeps_running s call o :
  process s = Alive → player s = PPlaying call → o ≠ Played →
  step lib cap s (APlayerFinish o) =
    Some (with_player s PWait, [EvPlayFailed call]) ∧
  process (with_player s PWait) = Alive.
Proof.
  intros Hp Hpl Ho. unfold_step. rewrite Hp, Hpl. by destruct o.
Qed.

(** A response with the closing marker before the opening one passes the
    marker check and makes the slice expression panic. *)
Lemma reversed_markers_panic : fetchListing lib reversedMarkers = Panic.
Proof. reflexivity. Qed.

End Errors.

(** C8, at the failing input: in a steady-state or priming cycle a
    response whose closing marker precedes the opening one is not turned
    into a logged error; the fetcher panics in [fetchJSON] and the whole
    process is gone with status 2, after which nothing moves. *)
Theorem reversed_markers_crash_the_process lib cap :
  fetchListing lib reversedMarkers = Panic ∧
  ∃ s,
    run lib cap init [ATimer; AFetcherTick reversedMarkers]
      = Some (s, [EvCrash]) ∧
    process s = Exited 2 ∧
    ∀ a, step lib cap s a = None.
Proof.
  split; [reflexivity|].
  eexists. split_and!.
  - eapply (run_cons _ _ _ _ _ _ [] _ [EvCrash]); [by apply step_timer|].
    eapply (run_cons _ _ _ _ _ _ [EvCrash] _ []); [|reflexivity].
    by apply step_tick_panic.
  - reflexivity.
  - intros a. reflexivity.
Qed.

(** ** Temporary files of the downloading players *)

(** C9, at the failing input: when the transcode (or the length probe, or
    the playback) fails after a successful download, the player moves on
    to the next call with the downloaded recording still on disk, and a
    download that fails while copying leaves its partial file; only the
    path that plays to the end removes the files. *)
Theorem failed_stage_leaves_files :
  (∀ Base Ext fs call wrote pl pb r1 r2,
     let out := Part001.playAudio Base Ext fs call
                  (mkPlayEnv Downloaded (ConvertFails wrote) pl pb r1 r2) in
     out.2 = ExitConvert ∧ Part001.filePathOf Base call ∈ out.1) ∧
  (∀ Base Ext fs call pb r1 r2,
     let out := Part001.playAudio Base Ext fs call
                  (mkPlayEnv Downloaded Converted false pb r1 r2) in
     out.2 = ExitTrackLength ∧
     Part001.filePathOf Base call ∈ out.1 ∧
     Part001.mp3FilePathOf Base Ext call ∈ out.1) ∧
  (∀ Base Ext fs call r1 r2,
     let out := Part001.playAudio Base Ext fs call
                  (mkPlayEnv Downloaded Converted true false r1 r2) in
     out.2 = ExitPlay ∧
     Part001.filePathOf Base call ∈ out.1 ∧
     Part001.mp3FilePathOf Base Ext call ∈ out.1) ∧
  (∀ Base Ext fs call cv pl pb r1 r2,
     let out := Part001.playAudio Base Ext fs call
                  (mkPlayEnv CopyFails cv pl pb r1 r2) in
     out.2 = ExitDownload ∧ Part001.filePathOf Base call ∈ out.1) ∧
  (∀ lastSegment replaceM4a fs call wrote pl pb r1 r2,
     let out := Part000.playAudio lastSegment replaceM4a fs call
                  (mkPlayEnv Downloaded (ConvertFails wrote) pl pb r1 r2) in
     out.2 = ExitConvert ∧ Part000.m4aPathOf lastSegment call ∈ out.1) ∧
  (∀ lastSegment replaceM4a fs call pl r1 r2,
     let out := Part000.playAudio lastSegment replaceM4a fs call
                  (mkPlayEnv Downloaded Converted pl false r1 r2) in
     out.2 = ExitPlay ∧
     Part000.m4aPathOf lastSegment call ∈ out.1 ∧
     Part000.mp3PathOf lastSegment replaceM4a call ∈ out.1).
Proof.
  split_and!; intros; subst out;
    unfold Part001.playAudio, Part000.playAudio; simpl;
    repeat match goal with |- context [if ?b then _ else _] => destruct b end;
    simpl; split_and!; try done;
    rewrite ?elem_of_union, ?elem_of_singleton; tauto.
Qed.

(** The path that plays to the end removes both files. *)
Lemma completed_call_removes_files Base Ext fs call :
  let out := Part001.playAudio Base Ext fs call
               (mkPlayEnv Downloaded Converted true true true true) in
  out.2 = ExitCompleted ∧
  (Part001.filePathOf Base call ∉ out.1) ∧
  (Part001.mp3FilePathOf Base Ext call ∉ out.1).
Proof.
  intros out. subst out. unfold Part001.playAudio, os_Remove. simpl.
  split_and!; [done| |];
    rewrite !elem_of_difference, !elem_of_singleton; tauto.
Qed.


(** * Further properties of the code *)

(** ** The ledger, the queue and the player over a whole run *)

Section WholeRun.
Context (lib : Decoders) (cap : nat).

(** The ledger holds exactly the identities stored while priming and the
    ones [LoadOrStore] stored later, each with the value [true]. *)
Lemma ledger_contents tr s :
  reaches lib cap init tr s →
  dom (processedCalls s) =
    (list_to_set (primed tr) ∪ list_to_set (news tr) : gset string) ∧
  ∀ k v, processedCalls s !! k = Some v → v = true.
Proof.
  induction 1 as [|tr s1 a s2 evs Hr [IHd IHv] Hstep].
  { split; [set_solver|]. intros k v. simpl. by rewrite lookup_empty. }
  destruct s1 as [pr dn q pc fr f p m]; simpl in *.
  step_inv Hstep; rewrite ?primed_app, ?news_app; simpl;
    rewrite ?app_nil_r; try (split; done).
  all: split;
    [ rewrite ?list_to_set_app_L, dom_insert_L, IHd; simpl; set_solver
    | intros k v; rewrite lookup_insert; case_decide; [by intros [= <-]|];
      apply IHv ].
Qed.

(** Every call put on the queue is accounted for: it was played, or
    dropped, or is still queued. *)
Lemma enqueued_accounted tr s :
  reaches lib cap init tr s →
  enqs tr ≡ₚ deqs tr ++ evicts tr ++ queue s.
Proof.
  induction 1 as [|tr s1 a s2 evs Hr IH Hstep]; [done|].
  destruct s1 as [pr dn q pc fr f p m]; simpl in *.
  step_inv Hstep; rewrite ?enqs_app, ?deqs_app, ?evicts_app; simpl;
    rewrite ?app_nil_r; try done.
  all: rewrite IH; solve_Permutation.
Qed.

(** The player holds at most one call: what it has received is what it
    has finished, followed by the call it holds. *)
Lemma player_is_sequential tr s :
  reaches lib cap init tr s →
  deqs tr = finished tr ++ playing s.
Proof.
  induction 1 as [|tr s1 a s2 evs Hr IH Hstep]; [done|].
  destruct s1 as [pr dn q pc fr f p m]; unfold playing, finished in *;
    simpl in *.
  step_inv Hstep; rewrite ?deqs_app, ?omap_app; simpl;
    rewrite ?app_nil_r in *; try done.
  all: try (rewrite IH, <- ?app_assoc; done).
  all: destruct o; simpl; rewrite IH; done.
Qed.

(** The blocking send after a drop never blocks: when the fetcher stands
    before [queue <- call] the queue has room. *)
Lemma resend_has_room tr s call rest :
  reaches lib cap init tr s → fetcher s = FResend call rest →
  (length (queue s) < cap)%nat ∧
  fetchCalls_range cap s =
    Some (with_fetcher (with_queue s (queue s ++ [call])) (FRange rest),
          [EvEnq call]).
Proof.
  intros Hr Hf.
  assert (Hroom : (length (queue s) < cap)%nat).
  { revert call rest Hf.
    induction Hr as [|tr s1 a s2 evs Hr IH Hstep]; [done|].
    pose proof (queue_bounded _ _ _ _ Hr) as Hb.
    destruct s1 as [pr dn q pc fr f p m]; simpl in *.
    intros call rest Hf.
    step_inv Hstep; try done;
      try (by eapply IH); try (simpl in Hb; lia).
    all: specialize (IH _ _ eq_refl); simpl in IH; lia. }
  split; [done|]. unfold fetchCalls_range. rewrite Hf. unfold Chan.send.
  by rewrite (proj2 (try_send_Some cap (queue s) call _) (conj Hroom eq_refl)).
Qed.

(** Nothing is dropped before the queue has been full: as long as fewer
    calls than the capacity have been enqueued in all, no call was dropped
    and the fetcher is not about to drop one. *)
Lemma no_drop_before_full tr s :
  reaches lib cap init tr s →
  (length (enqs tr) < cap)%nat →
  evicts tr = [] ∧ pendingCall s = [].
Proof.
  intros Hr. 
  assert (Hinv : evicts tr ≠ [] ∨ pendingCall s ≠ [] →
                 (cap ≤ length (enqs tr))%nat).
  { induction Hr as [|tr s1 a s2 evs Hr IH Hstep]; [by intros [|]|].
    pose proof (fifo_inv_reaches _ _ _ _ Hr) as [_ HF].
    assert (Hq : (length (queue s1) ≤ length (enqs tr))%nat).
    { etransitivity; [|apply (length_filter (λ c, c ∉ evicts tr))].
      rewrite HF, length_app. lia. }
    destruct s1 as [pr dn q pc fr f p m]; unfold pendingCall in *;
      simpl in *.
    step_inv Hstep; rewrite ?enqs_app, ?evicts_app; simpl;
      rewrite ?app_nil_r, ?length_app; simpl; try done.
    all: try (intros Hc; etransitivity; [apply IH; tauto|lia]).
    all: try (intros _; simpl in Hq; lia).
    all: intros _; etransitivity; [apply IH; right; done|lia]. }
  intros Hlt. split.
  - destruct (evicts tr) eqn:He; [done|]. exfalso.
    assert (cap ≤ length (enqs tr))%nat by (apply Hinv; by left). lia.
  - destruct (pendingCall s) eqn:He; [done|]. exfalso.
    assert (cap ≤ length (enqs tr))%nat by (apply Hinv; by right). lia.
Qed.

(** If the player has emptied the queue by the time the fetcher runs its
    [<-queue], the fetcher waits there for the rest of the run: nothing
    else ever sends on the queue. *)
Lemma drop_on_empty_queue_blocks s call rest tr s' :
  fetcher s = FDropOldest call rest → queue s = [] →
  reaches lib cap s tr s' →
  fetcher s' = FDropOldest call rest ∧ queue s' = [] ∧
  enqs tr = [] ∧ listings tr = [].
Proof.
  intros Hf Hq.
  induction 1 as [|tr s1 a s2 evs Hr IH Hstep]; [done|].
  destruct IH as (IHf & IHq & IHe & IHl).
  destruct s1 as [pr dn q pc fr f p m]; simpl in *. subst.
  step_inv Hstep; rewrite ?enqs_app, ?listings_app, ?IHe, ?IHl; done.
Qed.


End WholeRun.

(** On the sample runs. *)

Lemma ledger_contents_witness :
  dom (processedCalls sampleRun.1) =
    (list_to_set (primed sampleRun.2) ∪ list_to_set (news sampleRun.2)
       : gset string) ∧
  ∀ k v, processedCalls sampleRun.1 !! k = Some v → v = true.
Proof.
  apply (ledger_contents sampleDecoders MaxQueueSize).
  apply run_reaches with sampleSchedule. vm_compute. reflexivity.
Defined.

Lemma enqueued_accounted_witness :
  enqs sampleRun.2 ≡ₚ
    deqs sampleRun.2 ++ evicts sampleRun.2 ++ queue sampleRun.1.
Proof.
  apply (enqueued_accounted sampleDecoders MaxQueueSize).
  apply run_reaches with sampleSchedule. vm_compute. reflexivity.
Defined.

Lemma player_is_sequential_witness :
  deqs shutdownRun.2 = finished shutdownRun.2 ++ playing shutdownRun.1.
Proof.
  apply (player_is_sequential sampleDecoders MaxQueueSize).
  apply run_reaches with shutdownSchedule. vm_compute. reflexivity.
Defined.

Lemma resend_has_room_witness :
  (length (queue resendRun.1) < 1)%nat ∧
  fetchCalls_range 1 resendRun.1 =
    Some (with_fetcher (with_queue resendRun.1 (queue resendRun.1 ++ [callB]))
            (FRange []),
          [EvEnq callB]).
Proof.
  apply (resend_has_room sampleDecoders 1 resendRun.2).
  - apply run_reaches with resendSchedule. vm_compute. reflexivity.
  - vm_compute. reflexivity.
Defined.

Lemma no_drop_before_full_witness :
  evicts sampleRun.2 = [] ∧ pendingCall sampleRun.1 = [].
Proof.
  apply (no_drop_before_full sampleDecoders MaxQueueSize).
  - apply run_reaches with sampleSchedule. vm_compute. reflexivity.
  - vm_compute. lia.
Defined.

Lemma drop_on_empty_queue_blocks_witness :
  reaches sampleDecoders MaxQueueSize init drainedRun.2 drainedRun.1 ∧
  fetcher afterDrained.1 = FDropOldest (callOf "O") [] ∧
  queue afterDrained.1 = [] ∧
  enqs afterDrained.2 = [] ∧ listings afterDrained.2 = [].
Proof.
  split.
  - apply run_reaches with drainedSchedule. vm_compute. reflexivity.
  - apply (drop_on_empty_queue_blocks sampleDecoders MaxQueueSize
             drainedRun.1).
    + vm_compute. reflexivity.
    + vm_compute. reflexivity.
    + apply run_reaches with [ASignal; APlayerDone]. vm_compute. reflexivity.
Defined.



(** ** The response envelope *)

Lemma length_substring (s : string) (n m : nat) :
  String.length (String.substring n m s) = (m `min` (String.length s - n))%nat.
Proof.
  revert n m. induction s as [|c s IH]; intros [|n] [|m];
    cbn [String.length String.substring]; rewrite ?IH; lia.
Qed.

(** A found marker lies inside the string, at the position reported. *)
Lemma strings_Index_found (s substr : string) :
  (0 < String.length substr)%nat →
  strings_Index s substr ≠ (-1)%Z →
  (0 ≤ strings_Index s substr)%Z ∧
  String.substring (Z.to_nat (strings_Index s substr))
    (String.length substr) s = substr ∧
  (strings_Index s substr + Z.of_nat (String.length substr)
     ≤ Z.of_nat (String.length s))%Z.
Proof.
  intros Hpos. unfold strings_Index.
  destruct (String.index 0 substr s) as [i|] eqn:Hi; [|done]. intros _.
  apply String.index_correct1 in Hi. rewrite Nat2Z.id.
  split_and!; [lia|done|].
  pose proof (length_substring s i (String.length substr)) as Hl.
  rewrite Hi in Hl. lia.
Qed.

(** The two markers cannot overlap: an opening marker that starts before
    the closing one ends before it. *)
Lemma markers_do_not_overlap (s : string) (a b : nat) :
  String.substring a 5 s = "<pre>" → String.substring b 6 s = "</pre>" →
  a ≠ b ∧ ((a < b)%nat → (a + 5 ≤ b)%nat).
Proof.
  intros Ha Hb.
  assert (Hget : ∀ k, (k < 5)%nat →
            String.get (k + a) s = String.get k "<pre>").
  { intros k Hk. rewrite <- Ha. symmetry. by apply String.substring_correct1. }
  pose proof (String.substring_correct1 s b 6 0 ltac:(lia)) as Hlt.
  pose proof (String.substring_correct1 s b 6 1 ltac:(lia)) as Hsl.
  rewrite Hb in Hlt, Hsl. simpl in Hlt, Hsl.
  split.
  - intros ->. pose proof (Hget 1%nat ltac:(lia)) as H1. simpl in H1.
    rewrite H1 in Hsl. discriminate Hsl.
  - intros Hab. destruct (decide (a + 5 ≤ b)%nat) as [|Hn]; [done|]. exfalso.
    assert (Hk : ∃ k, (1 ≤ k < 5)%nat ∧ b = (k + a)%nat)
      by (exists (b - a)%nat; lia).
    destruct Hk as (k & Hk & ->). rewrite (Hget k) in Hlt by lia.
    destruct k as [|[|[|[|[|k]]]]]; try lia; discriminate Hlt.
Qed.

Section Envelope.
Context (lib : Decoders).

(** With both markers present, [fetchJSON] panics when the closing one
    comes first, and otherwise unquotes exactly the text between them. *)
Lemma fetchJSON_on_markers html :
  let a := strings_Index html "<pre>" in
  let b := strings_Index html "</pre>" in
  a ≠ (-1)%Z → b ≠ (-1)%Z →
  a ≠ b ∧
  ((b < a)%Z → fetchJSON lib (Reply StatusOK (Some html)) = Panic) ∧
  ((a < b)%Z →
   (a + 5 ≤ b)%Z ∧
   fetchJSON lib (Reply StatusOK (Some html)) =
     match Unquote lib
             (dquote +:+
              String.substring (Z.to_nat a + 5) (Z.to_nat b - (Z.to_nat a + 5))
                html +:+ dquote) with
     | Some unescapedJSON => Ok unescapedJSON
     | None => Err ErrUnquote
     end).
Proof.
  intros a b Ha Hb.
  destruct (strings_Index_found html "<pre>" ltac:(simpl; lia) Ha)
    as (Ha0 & Hsa & _).
  destruct (strings_Index_found html "</pre>" ltac:(simpl; lia) Hb)
    as (Hb0 & Hsb & Hbl).
  fold a in Ha0, Hsa. fold b in Hb0, Hsb, Hbl.
  destruct (markers_do_not_overlap html (Z.to_nat a) (Z.to_nat b) Hsa Hsb)
    as [Hne Hov].
  assert (Hpre : fetchJSON lib (Reply StatusOK (Some html)) =
            match slice html (a + 5) b with
            | None => Panic
            | Some jsonStr =>
                match Unquote lib (dquote +:+ jsonStr +:+ dquote) with
                | None => Err ErrUnquote
                | Some unescapedJSON => Ok unescapedJSON
                end
            end).
  { unfold fetchJSON. rewrite bool_decide_false by (intros Hx; by apply Hx).
    fold a b. rewrite bool_decide_false by (intros [?|?]; done). done. }
  split_and!.
  - intros Heq. apply Hne. by rewrite Heq.
  - intros Hlt. rewrite Hpre. unfold slice.
    rewrite bool_decide_false by lia. done.
  - intros Hlt. assert (a + 5 ≤ b)%Z by lia. split; [done|].
    rewrite Hpre. unfold slice. rewrite bool_decide_true.
    + replace (Z.to_nat (a + 5)) with (Z.to_nat a + 5)%nat by lia.
      replace (Z.to_nat (b - (a + 5))) with (Z.to_nat b - (Z.to_nat a + 5))%nat
        by lia.
      by destruct (Unquote lib _).
    + simpl in Hbl. lia.
Qed.

(** [fetchJSON] panics in no other case. *)
Lemma fetchJSON_panics_only_on_reversed_markers r :
  fetchJSON lib r = Panic ↔
  ∃ html,
    r = Reply StatusOK (Some html) ∧
    strings_Index html "<pre>" ≠ (-1)%Z ∧
    strings_Index html "</pre>" ≠ (-1)%Z ∧
    (strings_Index html "</pre>" < strings_Index html "<pre>")%Z.
Proof.
  split.
  - intros Hp. destruct r as [| | |code [html|]]; try done.
    + assert (Hc : code = StatusOK).
      { destruct (decide (code = StatusOK)) as [|Hn]; [done|].
        unfold fetchJSON in Hp. by rewrite bool_decide_true in Hp. }
      subst code.
      assert (Hm : strings_Index html "<pre>" ≠ (-1)%Z ∧
                   strings_Index html "</pre>" ≠ (-1)%Z).
      { destruct (decide (strings_Index html "<pre>" = (-1)%Z ∨
                          strings_Index html "</pre>" = (-1)%Z)) as [Hd|Hd];
          [|tauto].
        unfold fetchJSON in Hp.
        rewrite bool_decide_false in Hp by (intros Hx; by apply Hx).
        by rewrite (bool_decide_true _ Hd) in Hp. }
      destruct Hm as [Ha Hb]. exists html. split_and!; try done.
      destruct (fetchJSON_on_markers html Ha Hb) as (Hne & _ & Hok).
      destruct (Z.lt_trichotomy (strings_Index html "</pre>")
                  (strings_Index html "<pre>")) as [?|[Heq|Hlt]]; [done| |].
      * by exfalso; apply Hne.
      * destruct (Hok Hlt) as [_ Hr]. rewrite Hr in Hp.
        by destruct (Unquote lib _).
    + unfold fetchJSON in Hp. by case_bool_decide.
  - intros (html & -> & Ha & Hb & Hlt).
    by apply (fetchJSON_on_markers html Ha Hb).
Qed.

(** What a result of [fetchJSON] means: the proxy answered 200 with a
    body that has both markers, the opening one first, and the result is
    the unquoted text between them. *)
Lemma fetchJSON_returns_text_between_markers r unescapedJSON :
  fetchJSON lib r = Ok unescapedJSON →
  ∃ html,
    r = Reply StatusOK (Some html) ∧
    (0 ≤ strings_Index html "<pre>")%Z ∧
    (strings_Index html "<pre>" + 5 ≤ strings_Index html "</pre>")%Z ∧
    (strings_Index html "</pre>" + 6 ≤ Z.of_nat (String.length html))%Z ∧
    Unquote lib
      (dquote +:+
       String.substring (Z.to_nat (strings_Index html "<pre>") + 5)
         (Z.to_nat (strings_Index html "</pre>") -
          (Z.to_nat (strings_Index html "<pre>") + 5)) html +:+
       dquote) = Some unescapedJSON.
Proof.
  intros Hok. destruct r as [| | |code [html|]]; try done.
  2: { unfold fetchJSON in Hok. by case_bool_decide. }
  assert (Hc : code = StatusOK).
  { destruct (decide (code = StatusOK)) as [|Hn]; [done|].
    unfold fetchJSON in Hok. by rewrite bool_decide_true in Hok. }
  subst code.
  assert (Hm : strings_Index html "<pre>" ≠ (-1)%Z ∧
               strings_Index html "</pre>" ≠ (-1)%Z).
  { destruct (decide (strings_Index html "<pre>" = (-1)%Z ∨
                      strings_Index html "</pre>" = (-1)%Z)) as [Hd|Hd];
      [|tauto].
    unfold fetchJSON in Hok.
    rewrite bool_decide_false in Hok by (intros Hx; by apply Hx).
    by rewrite (bool_decide_true _ Hd) in Hok. }
  destruct Hm as [Ha Hb]. exists html.
  destruct (fetchJSON_on_markers html Ha Hb) as (Hne & Hrev & Hfwd).
  destruct (strings_Index_found html "<pre>" ltac:(simpl; lia) Ha)
    as (Ha0 & _ & _).
  destruct (strings_Index_found html "</pre>" ltac:(simpl; lia) Hb)
    as (_ & _ & Hbl).
  destruct (Z.lt_trichotomy (strings_Index html "</pre>")
              (strings_Index html "<pre>")) as [Hlt|[Heq|Hlt]].
  - rewrite (Hrev Hlt) in Hok. done.
  - by exfalso; apply Hne.
  - destruct (Hfwd Hlt) as [Hle Hr]. rewrite Hr in Hok.
    split_and!; try done.
    destruct (Unquote lib _); [by injection Hok as ->|done].
Qed.

End Envelope.

(** On the sample responses. *)

Lemma fetchJSON_panics_only_on_reversed_markers_witness :
  fetchJSON sampleDecoders reversedMarkers = Panic.
Proof.
  apply (fetchJSON_panics_only_on_reversed_markers sampleDecoders).
  exists "</pre><pre>". split_and!.
  - reflexivity.
  - vm_compute. discriminate.
  - vm_compute. discriminate.
  - vm_compute. reflexivity.
Defined.

Lemma fetchJSON_returns_text_between_markers_witness :
  ∃ html,
    replyOf "AB" = Reply StatusOK (Some html) ∧
    (0 ≤ strings_Index html "<pre>")%Z ∧
    (strings_Index html "<pre>" + 5 ≤ strings_Index html "</pre>")%Z ∧
    (strings_Index html "</pre>" + 6 ≤ Z.of_nat (String.length html))%Z ∧
    Unquote sampleDecoders
      (dquote +:+
       String.substring (Z.to_nat (strings_Index html "<pre>") + 5)
         (Z.to_nat (strings_Index html "</pre>") -
          (Z.to_nat (strings_Index html "<pre>") + 5)) html +:+
       dquote) = Some "AB".
Proof.
  apply (fetchJSON_returns_text_between_markers sampleDecoders (replyOf "AB")).
  vm_compute. reflexivity.
Defined.

(** ** Start-up of main.go *)

Section StartupFacts.
Context (lib : Decoders).

(** The goroutines are started exactly when cobra calls [Run], the
    proxy answers its probe with 200, and a system name is at hand: the
    flag when it is not empty, and otherwise the token read from the user
    after a systems listing that was fetched, parsed and marked
    successful. *)
Lemma main_launches_iff env shortName s :
  main lib env = Launched shortName s ↔
  commandLine env = RunCommand ∧ probe env = Some StatusOK ∧ s = init ∧
  ((shortnameFlag env ≠ EmptyString ∧ shortName = shortnameFlag env) ∨
   (shortnameFlag env = EmptyString ∧
    ∃ body systemsResponse,
      fetchJSON lib (systemsReply env) = Ok body ∧
      UnmarshalSystems lib body = Some systemsResponse ∧
      Success systemsResponse = true ∧
      scanln env = Some shortName)).
Proof.
  unfold main, isFlareSolverrRunning, fetchSystems.
  destruct (commandLine env); simpl;
    [split; [done|by intros ([=] & _)]..|].
  destruct (probe env) as [code|]; simpl;
    [|split; [done|by intros (_ & [=] & _)]].
  case_bool_decide as Hc; simpl;
    [subst code|split; [done|intros (_ & [= ->] & _); by exfalso; apply Hc]].
  case_bool_decide as Hf; simpl.
  - destruct (fetchJSON lib (systemsReply env)) as [body| |] eqn:Hj.
    2,3: split; [done|];
      intros (_ & _ & _ & [[Hn _]|(_ & b & rs & [=] & _)]); by exfalso; apply Hn.
    destruct (UnmarshalSystems lib body) as [resp|] eqn:Hu.
    2: split; [done|];
      intros (_ & _ & _ & [[Hn _]|(_ & b & rs & [= <-] & Hu' & _)]);
      [by exfalso; apply Hn|congruence].
    destruct (Success resp) eqn:Hs; simpl.
    2: split; [done|];
      intros (_ & _ & _ & [[Hn _]|(_ & b & rs & [= <-] & Hu' & Hs' & _)]);
      [by exfalso; apply Hn|congruence].
    destruct (scanln env) as [tok|].
    + split.
      * intros [= <- <-]. split_and!; try done. right. split; [done|].
        by exists body, resp.
      * intros (_ & _ & -> & [[Hn _]|(_ & b & rs & _ & _ & _ & [= <-])]);
          [by exfalso; apply Hn|done].
    + split; [done|].
      intros (_ & _ & _ & [[Hn _]|(_ & b & rs & _ & _ & _ & [=])]);
        by exfalso; apply Hn.
  - split.
    + intros [= <- <-]. split_and!; try done. by left.
    + intros (_ & _ & -> & [[_ ->]|[He _]]); [done|by exfalso; apply Hf].
Qed.

(** Whenever [main] ends the process itself, the status is 1. *)
Lemma main_exit_status env msg status :
  main lib env = ExitedEarly msg status → status = 1%Z.
Proof.
  unfold main.
  destruct (commandLine env); simpl; [by intros [= _ <-]|done|].
  destruct (isFlareSolverrRunning (probe env)); simpl; [|by intros [= _ <-]].
  case_bool_decide; [|done].
  destruct (fetchSystems lib _ _); try done. by intros [= _ <-].
Qed.

(** With [--shortname] given, the systems listing and the prompt play no
    part in what [main] does. *)
Lemma main_flag_skips_listing env r input :
  shortnameFlag env ≠ EmptyString →
  main lib env =
    main lib (mkStartupEnv (commandLine env) (shortnameFlag env) (probe env)
                r input).
Proof.
  intros Hf. unfold main. simpl.
  destruct (commandLine env); [done|done|]. simpl.
  destruct (isFlareSolverrRunning (probe env)); [|done]. simpl.
  by rewrite bool_decide_false.
Qed.

End StartupFacts.

Lemma main_launches_iff_witness :
  main sampleDecoders promptedStart = Launched "kcers1b" init.
Proof.
  apply (main_launches_iff sampleDecoders promptedStart).
  split_and!; try reflexivity.
  right. split; [reflexivity|].
  exists "1", (mkSystemsResponse true []). split_and!; vm_compute; reflexivity.
Defined.

Lemma main_flag_skips_listing_witness :
  main sampleDecoders flaggedStart =
    main sampleDecoders
      (mkStartupEnv RunCommand "kcers1b" (Some StatusOK) (replyOf "1")
         (Some "other")).
Proof.
  apply (main_flag_skips_listing sampleDecoders flaggedStart).
  discriminate.
Defined.

(** ** Drop-oldest over a batch *)

(** Enqueuing a batch one call after the other keeps the newest [cap]
    calls of the queue followed by the batch, and drops the older ones
    in order. *)
Lemma enqueueAll_keeps_newest cap queue calls :
  (0 < cap)%nat → (length queue ≤ cap)%nat →
  enqueueAll cap queue calls =
    Some (drop (length (queue ++ calls) - cap) (queue ++ calls),
          take (length (queue ++ calls) - cap) (queue ++ calls)).
Proof.
  intros Hcap. revert queue.
  induction calls as [|call rest IH]; intros queue Hlen.
  - simpl. rewrite app_nil_r.
    replace (length queue - cap)%nat with 0%nat by lia. done.
  - cbn [enqueueAll].
    destruct (decide (length queue < cap)%nat) as [Hroom|Hfull].
    + rewrite tryEnqueue_room by done. simpl.
      rewrite IH by (rewrite length_app; simpl; lia).
      simpl. by rewrite <- !app_assoc.
    + destruct queue as [|oldest queue']; [simpl in *; lia|].
      rewrite tryEnqueue_full by (simpl in *; lia). simpl.
      rewrite IH by (rewrite length_app; simpl in *; lia).
      simpl. rewrite <- !app_assoc. simpl.
      assert (Hn : (length (oldest :: queue' ++ call :: rest) - cap =
                    S (length (queue' ++ call :: rest) - cap))%nat).
      { simpl in *. rewrite !length_app in *. simpl. lia. }
      simpl in Hn. rewrite Hn. done.
Qed.

(** A batch that fits is appended whole and nothing is dropped. *)
Lemma enqueueAll_fits cap queue calls :
  (length queue + length calls ≤ cap)%nat →
  enqueueAll cap queue calls = Some (queue ++ calls, []).
Proof.
  revert queue. induction calls as [|call rest IH]; intros queue Hlen.
  - simpl. by rewrite app_nil_r.
  - cbn [enqueueAll]. simpl in Hlen.
    rewrite tryEnqueue_room by lia. simpl.
    rewrite IH by (rewrite length_app; simpl; lia).
    simpl. by rewrite <- app_assoc.
Qed.

(** ** The fetcher of the download-first revision *)

Section Collect.

Lemma collectNew_firstRun (m : gmap string bool) calls :
  (Part000.collectNew true m calls).2 = [].
Proof.
  revert m. induction calls as [|call rest IH]; intros m; [done|].
  simpl. destruct (SyncMap.Load m (ID call)); [apply IH|].
  specialize (IH (SyncMap.Store m (ID call) true)).
  by destruct (Part000.collectNew true _ rest).
Qed.

Lemma collectNew_dom firstRun (m : gmap string bool) calls :
  dom (Part000.collectNew firstRun m calls).1 =
    dom m ∪ (list_to_set (ID <$> calls) : gset string).
Proof.
  revert m. induction calls as [|call rest IH]; intros m.
  { simpl. set_solver. }
  simpl. unfold SyncMap.Load, SyncMap.Store.
  destruct (m !! ID call) as [b|] eqn:Hm.
  - rewrite IH. assert (ID call ∈ dom m) by (apply elem_of_dom; eauto).
    set_solver.
  - specialize (IH (<[ID call:=true]> m)).
    destruct (Part000.collectNew firstRun (<[ID call:=true]> m) rest)
      as [m1 add1]. simpl in *. rewrite IH, dom_insert_L. set_solver.
Qed.

Lemma collectNew_seen firstRun (m : gmap string bool) calls :
  (∀ c, c ∈ calls → is_Some (m !! ID c)) →
  Part000.collectNew firstRun m calls = (m, []).
Proof.
  induction calls as [|call rest IH]; intros Hall; [done|].
  simpl. unfold SyncMap.Load.
  destruct (Hall call) as [b Hb]; [left|]. rewrite Hb.
  apply IH. intros c Hc. apply Hall. by right.
Qed.

Lemma collectNew_spec firstRun (m : gmap string bool) calls m' callsToAdd :
  Part000.collectNew firstRun m calls = (m', callsToAdd) →
  (firstRun = true → callsToAdd = []) ∧
  callsToAdd `sublist_of` calls ∧
  NoDup (ID <$> callsToAdd) ∧
  (∀ c, c ∈ callsToAdd → m !! ID c = None) ∧
  dom m' = dom m ∪ (list_to_set (ID <$> calls) : gset string) ∧
  (firstRun = false →
   ∀ c, c ∈ calls → m !! ID c = None → ID c ∈ ID <$> callsToAdd).
Proof.
  revert m m' callsToAdd.
  induction calls as [|call rest IH]; intros m m' add Hc.
  { simpl in Hc. injection Hc as <- <-. split_and!; try done.
    - constructor.
    - intros c []%elem_of_nil.
    - set_solver.
    - intros _ c []%elem_of_nil. }
  simpl in Hc. unfold SyncMap.Load, SyncMap.Store in Hc.
  destruct (m !! ID call) as [b|] eqn:Hm.
  - destruct (IH _ _ _ Hc) as (H1 & H2 & H3 & H4 & H5 & H6).
    split_and!; try done.
    + by apply sublist_cons.
    + rewrite H5. simpl.
      assert (ID call ∈ dom m) by (apply elem_of_dom; eauto). set_solver.
    + intros Hf c [->|Hin]%elem_of_cons Hn; [congruence|]. by apply H6.
  - destruct (Part000.collectNew firstRun (<[ID call:=true]> m) rest)
      as [m1 add1] eqn:Hrec.
    destruct (IH _ _ _ Hrec) as (H1 & H2 & H3 & H4 & H5 & H6).
    injection Hc as <- <-.
    assert (Hfresh : ID call ∉ ID <$> add1).
    { intros (c & Heq & Hin)%list_elem_of_fmap. apply H4 in Hin.
      rewrite <- Heq, lookup_insert_eq in Hin. done. }
    assert (H4' : ∀ c, c ∈ add1 → m !! ID c = None).
    { intros c Hin. apply H4 in Hin.
      by apply lookup_insert_None in Hin as [? _]. }
    split_and!.
    + intros ->. by apply H1.
    + destruct firstRun; [by apply sublist_cons|by apply sublist_skip].
    + destruct firstRun; [done|]. simpl. by apply NoDup_cons.
    + destruct firstRun; [done|].
      intros c [->|Hin]%elem_of_cons; [done|by apply H4'].
    + rewrite H5, dom_insert_L. simpl. set_solver.
    + intros -> c [->|Hin]%elem_of_cons Hn; simpl; [left|].
      destruct (decide (ID call = ID c)) as [Heq|Hne]; [rewrite Heq; left|].
      right. apply H6; [done|done|]. by rewrite lookup_insert_ne.
Qed.

(** A second cycle over the same listing finds nothing new. *)
Lemma collectNew_twice firstRun firstRun' (m : gmap string bool) calls :
  Part000.collectNew firstRun'
    (Part000.collectNew firstRun m calls).1 calls =
  ((Part000.collectNew firstRun m calls).1, []).
Proof.
  apply collectNew_seen. intros c Hin.
  apply elem_of_dom. rewrite collectNew_dom. apply elem_of_union. right.
  apply elem_of_list_to_set. by apply list_elem_of_fmap_2.
Qed.

(** A cycle with room in the queue appends the new calls in the reverse
    of their listing order and drops nothing; the first cycle only marks. *)
Lemma fetchCycle_with_room cap firstRun (m : gmap string bool) queue calls :
  (length queue + length (Part000.collectNew firstRun m calls).2 ≤ cap)%nat →
  Part000.fetchCycle cap firstRun m queue calls =
    Some ((Part000.collectNew firstRun m calls).1,
          (queue ++ reverse (Part000.collectNew firstRun m calls).2, []),
          false) ∧
  (firstRun = true →
   Part000.fetchCycle cap firstRun m queue calls =
     Some ((Part000.collectNew firstRun m calls).1, (queue, []), false)).
Proof.
  intros Hlen. unfold Part000.fetchCycle.
  pose proof (collectNew_firstRun m calls) as Hfirst.
  destruct (Part000.collectNew firstRun m calls) as [m' add] eqn:Hc.
  simpl in *.
  assert (Hen : enqueueAll cap queue (reverse add) =
                Some (queue ++ reverse add, [])).
  { apply enqueueAll_fits. by rewrite length_reverse. }
  split.
  - by rewrite Hen.
  - intros ->. rewrite Hc in Hfirst. simpl in Hfirst. by subst add.
Qed.

End Collect.

Lemma enqueueAll_keeps_newest_witness :
  enqueueAll 2 [callA] [callB; callC; callX] =
    Some ([callC; callX], [callA; callB]).
Proof.
  apply (enqueueAll_keeps_newest 2 [callA] [callB; callC; callX]).
  - lia.
  - simpl. lia.
Defined.

Lemma collectNew_spec_witness :
  (false = true → [callB; callC] = []) ∧
  [callB; callC] `sublist_of` [callA; callB; callA; callC; callB] ∧
  NoDup (ID <$> [callB; callC]) ∧
  (∀ c, c ∈ [callB; callC] → ({[ "A" := true ]} : gmap string bool) !! ID c = None) ∧
  dom (<["C" := true]> (<["B" := true]> ({[ "A" := true ]} : gmap string bool)))
    = dom ({[ "A" := true ]} : gmap string bool) ∪
      (list_to_set (ID <$> [callA; callB; callA; callC; callB]) : gset string) ∧
  (false = false →
   ∀ c, c ∈ [callA; callB; callA; callC; callB] →
        ({[ "A" := true ]} : gmap string bool) !! ID c = None →
        ID c ∈ ID <$> [callB; callC]).
Proof.
  apply (collectNew_spec false {[ "A" := true ]}
           [callA; callB; callA; callC; callB]).
  vm_compute. reflexivity.
Defined.

Lemma fetchCycle_with_room_witness :
  Part000.fetchCycle 5 false {[ "A" := true ]} [callA]
    [callA; callB; callA; callC; callB] =
  Some ((Part000.collectNew false {[ "A" := true ]}
           [callA; callB; callA; callC; callB]).1,
        ([callA] ++ reverse (Part000.collectNew false {[ "A" := true ]}
                              [callA; callB; callA; callC; callB]).2, []),
        false).
Proof.
  apply (fetchCycle_with_room 5 false {[ "A" := true ]} [callA]
           [callA; callB; callA; callC; callB]).
  vm_compute. lia.
Defined.

(** ** Strings *)

Lemma string_app_nil (b : string) : EmptyString +:+ b = b.
Proof. reflexivity. Qed.

Lemma string_app_cons (c : ascii) (a b : string) :
  String c a +:+ b = String c (a +:+ b).
Proof. reflexivity. Qed.

Lemma string_length_app (a b : string) :
  String.length (a +:+ b) = (String.length a + String.length b)%nat.
Proof.
  induction a as [|c a IH]; [done|].
  rewrite string_app_cons. simpl. by rewrite IH.
Qed.

Lemma substring_whole (s : string) : String.substring 0 (String.length s) s = s.
Proof. induction s as [|c s IH]; simpl; [done|by rewrite IH]. Qed.

Lemma substring_split (s : string) (n : nat) :
  (n ≤ String.length s)%nat →
  String.substring 0 n s +:+ String.substring n (String.length s - n) s = s.
Proof.
  revert n. induction s as [|c s IH]; intros [|n] Hn; simpl in *;
    try done; try lia.
  - by rewrite string_app_nil, substring_whole.
  - rewrite string_app_cons, IH by lia. done.
Qed.

Lemma substring_after_app (a b : string) :
  String.substring (String.length a) (String.length b) (a +:+ b) = b.
Proof.
  induction a as [|c a IH]; [apply substring_whole|].
  rewrite string_app_cons. simpl. done.
Qed.


(** [strings.TrimSuffix] takes off exactly the suffix it finds, and
    nothing when the suffix is not there. *)
Lemma TrimSuffix_round_trip (s suffix : string) :
  (HasSuffix s suffix = true → TrimSuffix s suffix +:+ suffix = s) ∧
  (HasSuffix s suffix = false → TrimSuffix s suffix = s) ∧
  HasSuffix (TrimSuffix s suffix +:+ suffix) suffix = true.
Proof.
  assert (Hadd : ∀ a b, HasSuffix (a +:+ b) b = true).
  { intros a b. unfold HasSuffix. rewrite string_length_app.
    rewrite bool_decide_true by lia.
    replace (String.length a + String.length b - String.length b)%nat
      with (String.length a) by lia.
    rewrite substring_after_app. by rewrite bool_decide_true. }
  split_and!.
  - unfold TrimSuffix. intros Hs. rewrite Hs. unfold HasSuffix in Hs.
    apply andb_true_iff in Hs as [Hl He].
    apply bool_decide_eq_true in Hl, He.
    pose proof (substring_split s (String.length s - String.length suffix)
                  ltac:(lia)) as Hsp.
    replace (String.length s - (String.length s - String.length suffix))%nat
      with (String.length suffix) in Hsp by lia.
    by rewrite He in Hsp.
  - unfold TrimSuffix. by intros ->.
  - apply Hadd.
Qed.

(** ** Files of the downloading players *)

Section Files.
Context (Base Ext lastSegment replaceM4a : string → string).

(** One iteration of the player touches no path but the recording and its
    MP3. *)
Lemma playAudio_frame fs call env p :
  (p ≠ Part001.filePathOf Base call →
   p ≠ Part001.mp3FilePathOf Base Ext call →
   (p ∈ (Part001.playAudio Base Ext fs call env).1 ↔ p ∈ fs)) ∧
  (p ≠ Part000.m4aPathOf lastSegment call →
   p ≠ Part000.mp3PathOf lastSegment replaceM4a call →
   (p ∈ (Part000.playAudio lastSegment replaceM4a fs call env).1 ↔ p ∈ fs)).
Proof.
  destruct env as [dl cv pl pb r1 r2].
  unfold Part001.playAudio, Part000.playAudio, os_Remove.
  split; intros H1 H2; simpl.
  all: destruct dl; simpl; try (rewrite ?elem_of_union, ?elem_of_singleton; tauto).
  all: destruct cv as [[]|]; simpl;
    try (rewrite ?elem_of_union, ?elem_of_singleton; tauto).
  all: try (destruct pl; simpl;
            [|rewrite ?elem_of_union, ?elem_of_singleton; tauto]).
  all: destruct pb; simpl;
    [|rewrite ?elem_of_union, ?elem_of_singleton; tauto].
  all: destruct r1, r2;
    rewrite ?elem_of_difference, ?elem_of_union, ?elem_of_singleton; tauto.
Qed.

(** The iteration runs to the end exactly when every stage succeeds, and
    then each file whose [os.Remove] succeeds is gone. *)
Lemma playAudio_completed fs call env :
  let out := Part001.playAudio Base Ext fs call env in
  (out.2 = ExitCompleted ↔
   download env = Downloaded ∧ convert env = Converted ∧
   probeLength env = true ∧ playback env = true) ∧
  (out.2 = ExitCompleted → removeOriginal env = true →
   (Part001.filePathOf Base call ∉ out.1)) ∧
  (out.2 = ExitCompleted → removeMP3 env = true →
   Part001.mp3FilePathOf Base Ext call ∉ out.1).
Proof.
  destruct env as [dl cv pl pb r1 r2].
  unfold Part001.playAudio, os_Remove. simpl.
  destruct dl; simpl;
    try (split_and!; [split; [done|by intros (?&?&?&?)]|done..]).
  destruct cv as [[]|]; simpl;
    try (split_and!; [split; [done|by intros (?&?&?&?)]|done..]).
  destruct pl; simpl;
    [|split_and!; [split; [done|by intros (?&?&?&?)]|done..]].
  destruct pb; simpl;
    [|split_and!; [split; [done|by intros (?&?&?&?)]|done..]].
  split_and!; [done| |]; intros _ ->; destruct r1 || destruct r2;
    rewrite ?elem_of_difference, ?elem_of_union, ?elem_of_singleton; tauto.
Qed.

(** A download that fails before anything is written: the revision that
    requests first leaves no file; the revision that creates the file
    first leaves it behind, empty, when the request fails. *)
Lemma failed_request_and_files fs call cv pl pb r1 r2 :
  Part001.playAudio Base Ext fs call (mkPlayEnv GetFails cv pl pb r1 r2)
    = (fs, ExitDownload) ∧
  Part001.playAudio Base Ext fs call (mkPlayEnv CreateFails cv pl pb r1 r2)
    = (fs, ExitDownload) ∧
  Part000.playAudio lastSegment replaceM4a fs call
    (mkPlayEnv CreateFails cv pl pb r1 r2) = (fs, ExitDownload) ∧
  Part000.playAudio lastSegment replaceM4a fs call
    (mkPlayEnv GetFails cv pl pb r1 r2)
    = ({[Part000.m4aPathOf lastSegment call]} ∪ fs, ExitDownload).
Proof. done. Qed.

(** When the recording already carries the extension [.mp3], the MP3 path
    is the path of the recording itself. *)
Lemma mp3_path_of_mp3_recording call :
  Ext (Part001.filePathOf Base call) = ".mp3" →
  HasSuffix (Part001.filePathOf Base call) ".mp3" = true →
  Part001.mp3FilePathOf Base Ext call = Part001.filePathOf Base call.
Proof.
  intros He Hs. unfold Part001.mp3FilePathOf. rewrite He.
  by apply TrimSuffix_round_trip.
Qed.

End Files.

(** ** Start-up of the downloading revisions *)




Lemma playAudio_frame_witness :
  "notes.txt" ∈
    (Part001.playAudio sampleBase sampleExt {[ "notes.txt" ]} recording
       failedTranscode).1 ↔ "notes.txt" ∈ ({[ "notes.txt" ]} : gset string).
Proof.
  apply (proj1 (playAudio_frame sampleBase sampleExt sampleBase sampleBase
           {[ "notes.txt" ]} recording failedTranscode "notes.txt")).
  - vm_compute. discriminate.
  - vm_compute. discriminate.
Defined.

Lemma playAudio_completed_witness :
  Part001.filePathOf sampleBase recording ∉
    (Part001.playAudio sampleBase sampleExt ∅ recording allGood).1.
Proof.
  apply (proj1 (proj2 (playAudio_completed sampleBase sampleExt ∅ recording
                         allGood))).
  - vm_compute. reflexivity.
  - reflexivity.
Defined.

Lemma mp3_path_of_mp3_recording_witness :
  Part001.mp3FilePathOf sampleBase sampleExt mp3Recording =
  Part001.filePathOf sampleBase mp3Recording.
Proof.
  apply (mp3_path_of_mp3_recording sampleBase sampleExt mp3Recording).
  - vm_compute. reflexivity.
  - vm_compute. reflexivity.
Defined.

